(** * markdown_to_json: the Markdown book parser, embedded and verified

    A shallow embedding of [src/markdown_to_json.py]: the five regular
    expressions, [normalize_whitespace], [split_sentences], [extract_notes],
    [ensure_chapter] and [parse_markdown] with its local [flush_paragraph],
    followed by the properties of the specification that concern them.

    Conventions.
    - A Python [str] is a sequence of Unicode code points: [str := list char]
      with [char := N].  [py "..."] turns an ASCII literal into such a
      sequence.
    - The dictionaries the parser builds with fixed keys (chapter, paragraph,
      sentence, book) are records; a key that the code adds only under a
      condition ([notes], [metadata]) is an [option] field.  The dictionary
      [book_metadata], whose keys are tested with [in], is a [gmap].
    - The local variables of [parse_markdown] that its closure and its loop
      mutate form the record [state]; the loop body is [step].
    - [current_chapter] is a reference to a dictionary that is also an element
      of the list [chapters]; it is modelled as an index into [chapters], and
      appending a paragraph through it updates the list in place. *)

From Stdlib Require Import NArith Ascii String Lia.
From stdpp Require Import base option list gmap strings.

Local Open Scope N_scope.
Local Open Scope list_scope.

(** ** Characters and strings *)

Definition char : Type := N.
Definition str : Type := list char.

(** An ASCII literal as a Python string. *)
Fixpoint py (s : string) : str :=
  match s with
  | EmptyString => []
  | String a s' => N_of_ascii a :: py s'
  end.

Definition LF : char := 10.
Definition CR : char := 13.
Definition SPACE : char := 32.
Definition LBRACKET : char := 0x5B.
Definition RBRACKET : char := 0x5D.
Definition CARET : char := 0x5E.

(** [str.isspace] on one character, which is also what [\s] matches in a
    pattern over [str] and what [strip], [lstrip] and [rstrip] remove. *)
Definition is_space (c : char) : bool :=
  ((0x09 <=? c) && (c <=? 0x0D)) || ((0x1C <=? c) && (c <=? 0x20))
  || (c =? 0x85) || (c =? 0xA0) || (c =? 0x1680)
  || ((0x2000 <=? c) && (c <=? 0x200A))
  || (c =? 0x2028) || (c =? 0x2029) || (c =? 0x202F) || (c =? 0x205F)
  || (c =? 0x3000).

(** The line boundaries of [str.splitlines]. *)
Definition is_linebreak (c : char) : bool :=
  ((0x0A <=? c) && (c <=? 0x0D)) || ((0x1C <=? c) && (c <=? 0x1E))
  || (c =? 0x85) || (c =? 0x2028) || (c =? 0x2029).

(** Lower case, as far as the patterns of this program need it: under
    [re.IGNORECASE] a letter of [by] or [footnote] matches exactly its two
    ASCII forms. *)
Definition lower (c : char) : char :=
  if (0x41 <=? c) && (c <=? 0x5A) then c + 0x20 else c.

Fixpoint lstrip (s : str) : str :=
  match s with
  | c :: t => if is_space c then lstrip t else s
  | [] => []
  end.

Fixpoint rstrip (s : str) : str :=
  match s with
  | c :: t =>
      match rstrip t with
      | [] => if is_space c then [] else [c]
      | r => c :: r
      end
  | [] => []
  end.

Definition strip (s : str) : str := rstrip (lstrip s).

Fixpoint startswith (s prefix : str) : bool :=
  match prefix, s with
  | [], _ => true
  | p :: prefix', c :: s' => (c =? p) && startswith s' prefix'
  | _ :: _, [] => false
  end.

(** [sep.join(parts)]. *)
Fixpoint join (sep : str) (parts : list str) : str :=
  match parts with
  | [] => []
  | [x] => x
  | x :: rest => x ++ sep ++ join sep rest
  end.

(** [str.splitlines()]: [cur] is the line being read, [after_cr] tells that
    the previous character was a carriage return, so that a line feed now
    belongs to the same boundary. *)
Fixpoint splitlines_from (after_cr : bool) (cur : str) (s : str) : list str :=
  match s with
  | [] => match cur with [] => [] | _ => [cur] end
  | c :: t =>
      if after_cr && (c =? LF) then splitlines_from false cur t
      else if is_linebreak c then cur :: splitlines_from (c =? CR) [] t
      else splitlines_from false (cur ++ [c]) t
  end.

Definition splitlines (s : str) : list str := splitlines_from false [] s.

(** ** Regular expressions

    A pattern is embedded as the function that tries it at the start of a
    string, in continuation-passing style so that a quantifier can give
    characters back: the continuation is what follows in the pattern, and
    it receives what was consumed and what is left. *)

Fixpoint first_match {A B : Type} (f : A → option B) (l : list A) : option B :=
  match l with
  | [] => None
  | x :: l' => match f x with Some y => Some y | None => first_match f l' end
  end.

(** The prefixes a greedy quantifier over the character class [p] can
    consume, longest first, each with the rest of the string. *)
Fixpoint greedy (p : char → bool) (s : str) : list (str * str) :=
  match s with
  | c :: t =>
      if p c then (prod_map (cons c) id <$> greedy p t) ++ [([], s)]
      else [([], s)]
  | [] => [([], [])]
  end.

Section Combinators.
Context {R : Type}.

(** The quantifier star over a character class. *)
Definition re_star (p : char → bool) (k : str → str → option R) (s : str) : option R :=
  first_match (λ '(run, rest), k run rest) (greedy p s).

(** The quantifier plus over a character class. *)
Definition re_plus (p : char → bool) (k : str → str → option R) (s : str) : option R :=
  first_match (λ '(run, rest), match run with [] => None | _ => k run rest end)
              (greedy p s).

(** An optional character of a class. *)
Definition re_opt (p : char → bool) (k : str → str → option R) (s : str) : option R :=
  match s with
  | c :: t =>
      if p c then match k [c] t with Some y => Some y | None => k [] s end
      else k [] s
  | [] => k [] s
  end.

(** One literal character. *)
Definition re_char (c : char) (k : str → option R) (s : str) : option R :=
  match s with
  | d :: t => if d =? c then k t else None
  | [] => None
  end.

(** A literal word under [re.IGNORECASE]; the continuation receives the
    text as it is written in the subject. *)
Fixpoint re_word_ci (w : str) (k : str → str → option R) (s : str) : option R :=
  match w with
  | [] => k [] s
  | x :: w' =>
      match s with
      | d :: t =>
          if lower d =? lower x then re_word_ci w' (λ m rest, k (d :: m) rest) t
          else None
      | [] => None
      end
  end.

(** The anchor "$" without [re.MULTILINE]: the end of the string, or just before a
    line feed that ends the string. *)
Definition re_eol (k : option R) (s : str) : option R :=
  match s with
  | [] => k
  | [c] => if c =? LF then k else None
  | _ => None
  end.
End Combinators.

Definition is_hash (c : char) : bool := c =? 0x23.
Definition is_terminator (c : char) : bool := (c =? 0x2E) || (c =? 0x21) || (c =? 0x3F).
Definition not_terminator (c : char) : bool := negb (is_terminator c).
Definition not_rbracket (c : char) : bool := negb (c =? RBRACKET).
(** What [.] matches without [re.DOTALL]. *)
Definition not_newline (c : char) : bool := negb (c =? LF).

(** HEADING_RE = "^(#+)\s+(TEXT)$" where TEXT is ".*", tried with [match],
    that is at the start of the string; gives groups 1 and 2. *)
Definition HEADING_RE (s : str) : option (str * str) :=
  re_plus is_hash (λ hashes r1,
    re_plus is_space (λ _ r2,
      re_star not_newline (λ txt r3,
        re_eol (Some (hashes, txt)) r3) r2) r1) s.

(** BY_LINE_RE = "^by\s+(.+)$" with [re.IGNORECASE], tried with [match];
    gives group 1. *)
Definition BY_LINE_RE (s : str) : option str :=
  re_word_ci (py "by") (λ _ r1,
    re_plus is_space (λ _ r2,
      re_plus not_newline (λ name r3,
        re_eol (Some name) r3) r2) r1) s.

(** The three patterns below are used with [findall] and [sub], which try
    them at successive positions; each gives what the caller uses of the
    match (the whole match for [findall] on a pattern without a group,
    group 1 for the replacers) and the text after the match. *)

(** SENTENCE_PATTERN = "[^.!?]+[.!?]?\s*" *)
Definition SENTENCE_PATTERN (s : str) : option (str * str) :=
  re_plus not_terminator (λ body r1,
    re_opt is_terminator (λ stop r2,
      re_star is_space (λ ws r3,
        Some (body ++ stop ++ ws, r3)) r2) r1) s.

(** FOOTNOTE_REF_RE = "\[\^([^\]]+)\]" *)
Definition FOOTNOTE_REF_RE (s : str) : option (str * str) :=
  re_char LBRACKET (re_char CARET (re_plus not_rbracket (λ ident r1,
    re_char RBRACKET (λ r2, Some (ident, r2)) r1))) s.

(** INLINE_FOOTNOTE_RE = "\[(footnote:[^\]]+)\]" with [re.IGNORECASE] *)
Definition INLINE_FOOTNOTE_RE (s : str) : option (str * str) :=
  re_char LBRACKET (re_word_ci (py "footnote:") (λ word r1,
    re_plus not_rbracket (λ ident r2,
      re_char RBRACKET (λ r3, Some (word ++ ident, r3)) r2) r1)) s.

(** "\s+", the pattern of [normalize_whitespace]. *)
Definition WHITESPACE_RE (s : str) : option (str * str) :=
  re_plus is_space (λ ws r, Some (ws, r)) s.

(** What a left-to-right scan makes of a text: the characters no match
    covers, and the matches. *)
Inductive piece : Type :=
  | Lit (c : char)
  | Hit (g : str).

(** The scan shared by [findall] and [sub]: try the pattern at the current
    position; after a match go on behind it, otherwise keep the character
    and move one position.  Every pattern of this program consumes at least
    one character, so the engine's special rule for empty matches never
    applies, and the length of the text is fuel enough
    ([scan_fuel_enough] below). *)
Fixpoint scan_fuel (fuel : nat) (re : str → option (str * str)) (s : str) : list piece :=
  match fuel with
  | O => []
  | S fuel' =>
      match s with
      | [] => []
      | c :: t =>
          match re s with
          | Some (g, rest) => Hit g :: scan_fuel fuel' re rest
          | None => Lit c :: scan_fuel fuel' re t
          end
      end
  end.

Definition scan (re : str → option (str * str)) (s : str) : list piece :=
  scan_fuel (length s) re s.

(** [pattern.findall(s)] *)
Definition findall (re : str → option (str * str)) (s : str) : list str :=
  omap (λ p, match p with Hit g => Some g | Lit _ => None end) (scan re s).

(** [pattern.sub(repl, s)] for a replacement function that, like the two
    replacers of [extract_notes], also updates the list [notes] it closes
    over. *)
Fixpoint sub_pieces (repl : str → list str → str * list str)
    (ps : list piece) (notes : list str) : str * list str :=
  match ps with
  | [] => ([], notes)
  | Lit c :: ps' =>
      let '(out, notes') := sub_pieces repl ps' notes in (c :: out, notes')
  | Hit g :: ps' =>
      let '(r, notes1) := repl g notes in
      let '(out, notes2) := sub_pieces repl ps' notes1 in
      (r ++ out, notes2)
  end.

Definition sub_fn (re : str → option (str * str))
    (repl : str → list str → str * list str) (s : str) (notes : list str) : str * list str :=
  sub_pieces repl (scan re s) notes.

(** [re.sub(pattern, repl, s)] for a replacement string. *)
Definition sub (re : str → option (str * str)) (repl : str) (s : str) : str :=
  (sub_fn re (λ _ notes, (repl, notes)) s []).1.

Local Close Scope N_scope.

(** ** The functions of the module *)

Definition normalize_whitespace (text : str) : str :=
  strip (sub WHITESPACE_RE (py " ") text).

Definition split_sentences (paragraph : str) : list str :=
  let paragraph := strip paragraph in
  if decide (paragraph = []) then []
  else
    let sentences := normalize_whitespace <$> findall SENTENCE_PATTERN paragraph in
    filter (λ s, s ≠ []) sentences.

(** Both replacers: record group 1, stripped, and replace the match by
    the empty string. *)
Definition footnote_replacer (g : str) (notes : list str) : str * list str :=
  ([], notes ++ [strip g]).
Definition inline_footnote_replacer (g : str) (notes : list str) : str * list str :=
  ([], notes ++ [strip g]).

Definition extract_notes (sentence : str) : str * list str :=
  let notes := [] in
  let '(cleaned, notes) := sub_fn FOOTNOTE_REF_RE footnote_replacer sentence notes in
  let '(cleaned, notes) := sub_fn INLINE_FOOTNOTE_RE inline_footnote_replacer cleaned notes in
  (normalize_whitespace cleaned, notes).

(** *** The dictionaries of the result *)

Record sentence : Type := {
  sentence_number : nat;
  text : str;
  notes : option (list str);   (* the key is present only for a non-empty list *)
}.

Record paragraph : Type := {
  paragraph_number : nat;
  sentences : list sentence;
}.

Record chapter : Type := {
  chapter_number : nat;
  chapter_title : str;
  paragraphs : list paragraph;
}.

Module Book.
Record t : Type := {
  title : str;
  chapters : list chapter;
  metadata : option (gmap string (list str));   (* present only when non-empty *)
}.
End Book.

(** The value [parse_markdown] returns, a dictionary with the one key [book]. *)
Record document : Type := { book : Book.t }.

(** [ensure_chapter] returns a reference to a chapter and may append to the
    list it is given: here it returns the index of that chapter together
    with the list as it is afterwards. *)
Definition ensure_chapter (current_chapter : option nat) (chapters : list chapter)
    (fallback_title : str) : nat * list chapter :=
  match current_chapter with
  | Some i => (i, chapters)
  | None =>
      let chapter := {|
        chapter_number := length chapters + 1;
        chapter_title := fallback_title;
        paragraphs := [];
      |} in
      (length chapters, chapters ++ [chapter])
  end.

(** *** The parser state: the local variables of [parse_markdown] *)

Record state : Type := {
  book_title : option str;
  book_metadata : gmap string (list str);
  chapters : list chapter;
  current_chapter : option nat;
  paragraph_lines : list str;
}.

Definition initial_state : state := {|
  book_title := None;
  book_metadata := ∅;
  chapters := [];
  current_chapter := None;
  paragraph_lines := [];
|}.

Definition set_paragraph_lines (v : list str) (st : state) : state :=
  {| book_title := book_title st; book_metadata := book_metadata st;
     chapters := chapters st; current_chapter := current_chapter st;
     paragraph_lines := v |}.

Definition set_chapters (v : list chapter) (st : state) : state :=
  {| book_title := book_title st; book_metadata := book_metadata st;
     chapters := v; current_chapter := current_chapter st;
     paragraph_lines := paragraph_lines st |}.

Definition set_current_chapter (v : option nat) (st : state) : state :=
  {| book_title := book_title st; book_metadata := book_metadata st;
     chapters := chapters st; current_chapter := v;
     paragraph_lines := paragraph_lines st |}.

Definition set_book_title (v : option str) (st : state) : state :=
  {| book_title := v; book_metadata := book_metadata st;
     chapters := chapters st; current_chapter := current_chapter st;
     paragraph_lines := paragraph_lines st |}.

Definition set_book_metadata (v : gmap string (list str)) (st : state) : state :=
  {| book_title := book_title st; book_metadata := v;
     chapters := chapters st; current_chapter := current_chapter st;
     paragraph_lines := paragraph_lines st |}.

(** The loop of [flush_paragraph] over [enumerate(sentences_raw, start=1)]. *)
Fixpoint number_sentences (number : nat) (sentences_raw : list str) : list sentence :=
  match sentences_raw with
  | [] => []
  | sentence :: rest =>
      let '(cleaned_sentence, notes) := extract_notes sentence in
      let sentence_entry := {|
        sentence_number := number;
        text := cleaned_sentence;
        notes := if decide (notes = []) then None else Some notes;
      |} in
      sentence_entry :: number_sentences (S number) rest
  end.

(** [current_chapter["paragraphs"].append(paragraph_entry)], through the
    index that stands for the reference.  An index that points outside
    [chapters] has no counterpart in Python, where the reference keeps its
    dictionary alive; it gives [None], and [parse_markdown_returns] shows
    that this never happens. *)
Definition append_paragraph (i : nat) (sentences : list sentence)
    (chapters : list chapter) : option (list chapter) :=
  ch ← chapters !! i;
  let paragraph_entry := {|
    paragraph_number := length (paragraphs ch) + 1;
    sentences := sentences;
  |} in
  Some (<[i := {| chapter_number := chapter_number ch;
                  chapter_title := chapter_title ch;
                  paragraphs := paragraphs ch ++ [paragraph_entry] |}]> chapters).

Definition flush_paragraph (st : state) : option state :=
  match current_chapter st with
  | None => Some (set_paragraph_lines [] st)
  | Some i =>
      let paragraph_text :=
        join (py " ") (strip <$> filter (λ line, strip line ≠ []) (paragraph_lines st)) in
      let st := set_paragraph_lines [] st in
      if decide (paragraph_text = []) then Some st
      else
        let sentences_raw := split_sentences paragraph_text in
        let sentences := number_sentences 1 sentences_raw in
        if decide (sentences = []) then Some st
        else
          chapters' ← append_paragraph i sentences (chapters st);
          Some (set_chapters chapters' st)
  end.

(** The test that both branches of the loop make on a text, and the
    assignment to [book_metadata["authors"]] it guards. *)
Definition record_author (candidate : str) (st : state) : state :=
  match BY_LINE_RE candidate with
  | Some name =>
      if decide (book_metadata st !! "authors" = None)
      then set_book_metadata (<["authors" := [normalize_whitespace name]]> (book_metadata st)) st
      else st
  | None => st
  end.

(** [book_title or "Section 1"] *)
Definition fallback_title (st : state) : str :=
  match book_title st with
  | Some t => if decide (t = []) then py "Section 1" else t
  | None => py "Section 1"
  end.

Definition open_chapter (st : state) : state :=
  let '(i, chapters') := ensure_chapter (current_chapter st) (chapters st) (fallback_title st) in
  set_current_chapter (Some i) (set_chapters chapters' st).

(** The body of the loop over the lines. *)
Definition step (st : state) (raw_line : str) : option state :=
  let line := rstrip raw_line in
  match HEADING_RE line with
  | Some (hashes, group2) =>
      st ← flush_paragraph st;
      let level := length hashes in
      let heading_text := strip group2 in
      if decide (book_title st = None ∧ level = 1) then
        Some (set_current_chapter None (set_book_title (Some heading_text) st))
      else
        let st := record_author heading_text st in
        let chapter := {|
          chapter_number := length (chapters st) + 1;
          chapter_title := heading_text;
          paragraphs := [];
        |} in
        Some (set_chapters (chapters st ++ [chapter])
                (set_current_chapter (Some (length (chapters st))) st))
  | None =>
      let stripped := strip line in
      if decide (stripped = []) then flush_paragraph st
      else
        let st := record_author stripped st in
        if startswith stripped (py "- ") then
          let st := open_chapter st in
          st ← flush_paragraph st;
          let st := set_paragraph_lines [stripped] st in
          flush_paragraph st
        else
          let st := open_chapter st in
          Some (set_paragraph_lines (paragraph_lines st ++ [line]) st)
  end.

Fixpoint run_lines (lines : list str) (st : state) : option state :=
  match lines with
  | [] => Some st
  | raw_line :: rest => st' ← step st raw_line; run_lines rest st'
  end.

Definition parse_markdown (markdown_text : str) : option document :=
  let lines := splitlines markdown_text in
  st ← run_lines lines initial_state;
  st ← flush_paragraph st;
  let title := default (py "Untitled") (book_title st) in
  let book_data := {|
    Book.title := title;
    Book.chapters := chapters st;
    Book.metadata :=
      if decide (book_metadata st = ∅) then None else Some (book_metadata st);
  |} in
  Some {| book := book_data |}.

(** * Vocabulary of the properties *)

(** [stops p rest]: a run of [p] cannot be extended into [rest]. *)
Definition stops (p : char → bool) (rest : str) : Prop :=
  match rest with
  | c :: _ => p c = false
  | [] => True
  end.

Definition all_of (p : char → bool) (run : str) : Prop :=
  Forall (λ c, p c = true) run.

(** A pattern that consumes at least one character whenever it matches. *)
Definition progressive (re : str → option (str * str)) : Prop :=
  ∀ s g rest, re s = Some (g, rest) → length rest < length s.

(** What [re.sub(r"\s+", " ", text)] computes, by recursion on the text: a
    whitespace character followed by another one disappears, the last one
    of a run becomes a space ([sub_whitespace_collapse]). *)
Fixpoint collapse (s : str) : str :=
  match s with
  | [] => []
  | c :: t =>
      if is_space c then
        match t with
        | d :: _ => if is_space d then collapse t else SPACE :: collapse t
        | [] => [SPACE]
        end
      else c :: collapse t
  end.

(** The only whitespace characters of [s] are spaces, and no two of them
    are adjacent. *)
Fixpoint single_spaced (s : str) : Prop :=
  match s with
  | [] => True
  | c :: t => (is_space c = true → c = SPACE ∧ stops is_space t) ∧ single_spaced t
  end.

(** A whitespace-normalized string: runs of whitespace are single spaces,
    and there is nothing to strip at either end. *)
Definition normalized (s : str) : Prop :=
  single_spaced s ∧ strip s = s.

(** [pre] is empty or ends with a sentence terminator. *)
Definition ends_sentence (pre : str) : Prop :=
  ∀ c, last pre = Some c → is_terminator c = true.

(** The numbers [1, 2, ...] in order: what each level of the result carries. *)
Definition counts_from_1 (numbers : list nat) : Prop :=
  numbers = seq 1 (length numbers).

(** The same in the words of the specification: the first number is 1 and
    the numbers increase strictly. *)
Definition increasing_from_1 (numbers : list nat) : Prop :=
  (∀ n, head numbers = Some n → n = 1) ∧
  (∀ i j a b, i < j → numbers !! i = Some a → numbers !! j = Some b → a < b).

Definition sentences_numbered (p : paragraph) : Prop :=
  counts_from_1 (sentence_number <$> sentences p).

Definition paragraphs_numbered (c : chapter) : Prop :=
  counts_from_1 (paragraph_number <$> paragraphs c) ∧
  Forall sentences_numbered (paragraphs c).

Definition chapters_numbered (chs : list chapter) : Prop :=
  counts_from_1 (chapter_number <$> chs) ∧ Forall paragraphs_numbered chs.

(** [book_metadata] is empty or holds one author under the key [authors]. *)
Definition metadata_ok (m : gmap string (list str)) : Prop :=
  m = ∅ ∨ ∃ author, m = {["authors" := [author]]}.

(** What holds of the parser state between any two lines: the numbering,
    a reference [current_chapter] that points into [chapters], and the shape
    of [book_metadata]. *)
Definition well_formed (st : state) : Prop :=
  chapters_numbered (chapters st) ∧
  (∀ i, current_chapter st = Some i → i < length (chapters st)) ∧
  metadata_ok (book_metadata st).

(** The paragraph a list item becomes: one sentence, the line itself. *)
Definition item_paragraph (number : nat) (line : str) : paragraph := {|
  paragraph_number := number;
  sentences := [{| sentence_number := 1; text := line; notes := None |}];
|}.

Definition add_paragraphs (ch : chapter) (ps : list paragraph) : chapter := {|
  chapter_number := chapter_number ch;
  chapter_title := chapter_title ch;
  paragraphs := paragraphs ch ++ ps;
|}.

(** The inputs of the worked examples of the specification. *)
Definition example_book : str :=
  py "# My Book" ++ [LF; LF] ++ py "by Jane Doe" ++ [LF; LF] ++ py "## Ch1"
  ++ [LF; LF] ++ py "Hello world. This is a test." ++ [LF].

Definition example_line : str := py "Just a line." ++ [LF].


(** The characters of [s] that are not whitespace, in their order. *)
Definition solid (s : str) : str :=
  filter (λ c, is_space c = false) (s : list char).

(** A text with no terminator, except possibly one as its last character. *)
Definition one_sentence (s : str) : Prop :=
  ∃ body stop, s = body ++ stop ∧ all_of not_terminator body ∧
    (stop = [] ∨ ∃ t, stop = [t] ∧ is_terminator t = true).

(** The characters of a scanned text that no match covers. *)
Definition unmatched (ps : list piece) : str :=
  omap (λ p, match p with Lit c => Some c | Hit _ => None end) ps.

(** What every entry of the result looks like. *)
Definition sentence_ok (s : sentence) : Prop :=
  normalized (text s) ∧
  match notes s with
  | Some ns => ns ≠ [] ∧ Forall (λ note, strip note = note) ns
  | None => True
  end.

Definition paragraph_ok (p : paragraph) : Prop :=
  sentences p ≠ [] ∧ Forall sentence_ok (sentences p).

Definition title_ok (t : str) : Prop := t ≠ [] ∧ strip t = t.

Definition chapter_ok (ch : chapter) : Prop :=
  title_ok (chapter_title ch) ∧ Forall paragraph_ok (paragraphs ch).

Definition author_ok (m : gmap string (list str)) : Prop :=
  m = ∅ ∨ ∃ author, m = {["authors" := [author]]} ∧ author ≠ [] ∧ normalized author.

(** A second invariant of the parser state: the shape of the entries built
    so far, and a reference [current_chapter] that is always the chapter
    created last. *)
Definition state_ok (st : state) : Prop :=
  Forall chapter_ok (chapters st) ∧
  (∀ t, book_title st = Some t → title_ok t) ∧
  author_ok (book_metadata st) ∧
  (∀ i, current_chapter st = Some i → S i = length (chapters st)).

(** The text of a line that is a level-1 heading. *)
Definition level1_heading (raw_line : str) : option str :=
  match HEADING_RE (rstrip raw_line) with
  | Some (hashes, group2) =>
      if decide (length hashes = 1) then Some (strip group2) else None
  | None => None
  end.

(** A chapter as it is later: the same number and title, and the same
    paragraphs, possibly followed by more. *)
Definition chapter_grows (ch ch' : chapter) : Prop :=
  chapter_number ch' = chapter_number ch ∧
  chapter_title ch' = chapter_title ch ∧
  paragraphs ch `prefix_of` paragraphs ch'.

(** The chapters of a later state: no chapter is removed or moved, each one
    only grows, and only the last one can change at all. *)
Definition chapters_extend (chs chs' : list chapter) : Prop :=
  ∀ i ch, chs !! i = Some ch →
    ∃ ch', chs' !! i = Some ch' ∧ chapter_grows ch ch' ∧
           (S i < length chs → ch' = ch).

(** A line of running text: not a heading, not blank, not a list item. *)
Definition plain_line (raw_line : str) : Prop :=
  HEADING_RE (rstrip raw_line) = None ∧
  strip (rstrip raw_line) ≠ [] ∧
  startswith (strip (rstrip raw_line)) (py "- ") = false.

(** * Properties *)

(** ** The embedding at work *)

Example extract_notes_reference :
  extract_notes (py "See this[^1] for detail.") = (py "See this for detail.", [py "1"]).
Proof. reflexivity. Qed.

(** A terminator that follows a terminator starts no match and is dropped. *)
Example split_sentences_terminators :
  split_sentences (py "Wait...  what?! Done") = [py "Wait."; py "what?"; py "Done"].
Proof. reflexivity. Qed.

(** A heading needs text after its marks: the line is stripped on its
    right before the pattern is tried. *)
Example HEADING_RE_marks_only :
  HEADING_RE (rstrip (py "##  ")) = None ∧
  HEADING_RE (rstrip (py "##  Part  one ")) = Some (py "##", py "Part  one").
Proof. split; reflexivity. Qed.

Example BY_LINE_RE_case :
  BY_LINE_RE (py "BY  Jane   Doe") = Some (py "Jane   Doe") ∧
  BY_LINE_RE (py "bye Jane") = None.
Proof. split; reflexivity. Qed.

Example splitlines_boundaries :
  splitlines (py "a" ++ [CR; LF] ++ py "b" ++ [LF; LF] ++ py "c" ++ [CR])
  = [py "a"; py "b"; []; py "c"].
Proof. reflexivity. Qed.

(** ** The greedy quantifiers *)

Lemma first_match_app {A B} (f : A → option B) l1 l2 :
  first_match f (l1 ++ l2) =
  match first_match f l1 with Some y => Some y | None => first_match f l2 end.
Proof.
  induction l1 as [|x l1 IH]; simpl; [by destruct (first_match f l2)|].
  destruct (f x); [done|apply IH].
Qed.

Lemma first_match_fmap {A A' B} (f : A' → option B) (h : A → A') l :
  first_match f (h <$> l) = first_match (λ x, f (h x)) l.
Proof. induction l as [|x l IH]; csimpl; [done|]. by rewrite IH. Qed.

Lemma first_match_ext {A B} (f g : A → option B) l :
  (∀ x, f x = g x) → first_match f l = first_match g l.
Proof. intros E. induction l as [|x l IH]; simpl; [done|]. by rewrite E, IH. Qed.

Lemma span_total (p : char → bool) (s : str) :
  ∃ run rest, s = run ++ rest ∧ all_of p run ∧ stops p rest.
Proof.
  induction s as [|c t (run & rest & -> & Hr & Hs)].
  - exists [], []. split_and!; try done; by constructor.
  - destruct (p c) eqn:Hc.
    + exists (c :: run), rest. split_and!; try done; by constructor.
    + exists [], (c :: run ++ rest). split_and!; try done; by constructor.
Qed.

Section Quantifiers.
Context {R : Type}.
Implicit Types (k : str → str → option R).

Lemma re_star_nil p k : re_star p k [] = k [] [].
Proof. unfold re_star. simpl. by destruct (k [] []). Qed.

Lemma re_star_stop p k c t :
  p c = false → re_star p k (c :: t) = k [] (c :: t).
Proof. unfold re_star. simpl. intros ->. simpl. by destruct (k [] (c :: t)). Qed.

Lemma re_star_step p k c t :
  p c = true →
  re_star p k (c :: t) =
  match re_star p (λ a b, k (c :: a) b) t with
  | Some y => Some y
  | None => k [] (c :: t)
  end.
Proof.
  unfold re_star. simpl. intros ->.
  rewrite first_match_app, first_match_fmap. simpl.
  rewrite (first_match_ext (λ x : str * str, k (c :: x.1) x.2)
             (λ '(run, rest), k (c :: run) rest)); [|by intros [a b]].
  destruct (first_match _ (greedy p t)); [done|]. by destruct (k [] (c :: t)).
Qed.

(** A quantifier followed by something that accepts the longest run
    takes the longest run. *)
Lemma re_star_longest p k run rest y :
  all_of p run → stops p rest → k run rest = Some y →
  re_star p k (run ++ rest) = Some y.
Proof.
  revert k. induction run as [|c run IH]; intros k Hr Hs Hk.
  - destruct rest as [|d rest]; simpl; [by rewrite re_star_nil|].
    by rewrite re_star_stop.
  - inversion Hr as [|?? Hc Hr']; subst. simpl. rewrite re_star_step by done.
    by rewrite (IH (λ a b, k (c :: a) b)).
Qed.

Lemma re_plus_longest p k run rest y :
  all_of p run → stops p rest → run ≠ [] → k run rest = Some y →
  re_plus p k (run ++ rest) = Some y.
Proof.
  intros Hr Hs Hne Hk.
  change (re_plus p k (run ++ rest)) with
    (re_star p (λ a b, match a with [] => None | _ => k a b end) (run ++ rest)).
  apply re_star_longest; [done..|]. by destruct run.
Qed.

(** What a successful quantifier consumed. *)
Lemma re_star_inv p k s y :
  re_star p k s = Some y →
  ∃ run rest, s = run ++ rest ∧ all_of p run ∧ k run rest = Some y.
Proof.
  revert k. induction s as [|c t IH]; intros k.
  - rewrite re_star_nil. intros Hk.
    exists [], []. split_and!; try done; by constructor.
  - destruct (p c) eqn:Hc.
    + rewrite re_star_step by done.
      destruct (re_star p _ t) eqn:Hm.
      * intros [= <-].
        apply IH in Hm as (run & rest & -> & Hr & Hk).
        exists (c :: run), rest. split_and!; try done; by constructor.
      * intros Hk. exists [], (c :: t). split_and!; try done; by constructor.
    + rewrite re_star_stop by done. intros Hk.
      exists [], (c :: t). split_and!; try done; by constructor.
Qed.

Lemma re_plus_inv p k s y :
  re_plus p k s = Some y →
  ∃ run rest, s = run ++ rest ∧ run ≠ [] ∧ all_of p run ∧ k run rest = Some y.
Proof.
  intros H.
  change (re_plus p k s) with
    (re_star p (λ a b, match a with [] => None | _ => k a b end) s) in H.
  apply re_star_inv in H as (run & rest & -> & Hr & Hk).
  exists run, rest. by destruct run.
Qed.

(** A quantifier at a character outside its class consumes nothing. *)
Lemma re_plus_stops p k s : stops p s → re_plus p k s = None.
Proof.
  unfold re_plus. destruct s as [|c t]; simpl; [done|]. by intros ->.
Qed.
End Quantifiers.

Section Inversions.
Context {R : Type}.

Lemma re_opt_inv p (k : str → str → option R) s y :
  re_opt p k s = Some y →
  ∃ o rest, s = o ++ rest ∧ all_of p o ∧ length o ≤ 1 ∧ k o rest = Some y.
Proof.
  unfold re_opt. intros H.
  assert (k [] s = Some y →
    ∃ o rest, s = o ++ rest ∧ all_of p o ∧ length o ≤ 1 ∧ k o rest = Some y) as Hnil.
  { intros Hk. exists [], s. split_and!; try done; [constructor|simpl; lia]. }
  destruct s as [|c t]; [auto|].
  destruct (p c) eqn:Hc; [|auto].
  destruct (k [c] t) eqn:Hk; [|auto].
  injection H as <-. exists [c], t.
  split_and!; try done. by repeat constructor.
Qed.

Lemma re_char_inv c (k : str → option R) s y :
  re_char c k s = Some y → ∃ t, s = c :: t ∧ k t = Some y.
Proof.
  unfold re_char. destruct s as [|d t]; [done|].
  destruct (N.eqb_spec d c) as [->|]; [|done]. eauto.
Qed.

Lemma re_char_eq c (k : str → option R) t : re_char c k (c :: t) = k t.
Proof. simpl. by rewrite N.eqb_refl. Qed.

Lemma re_char_ne c (k : str → option R) d t :
  d ≠ c → re_char c k (d :: t) = None.
Proof. intros Hne. simpl. by destruct (N.eqb_spec d c). Qed.

Lemma re_word_ci_inv w (k : str → str → option R) s y :
  re_word_ci w k s = Some y →
  ∃ m rest, s = m ++ rest ∧ lower <$> m = lower <$> w ∧ k m rest = Some y.
Proof.
  revert k s. induction w as [|x w IH]; intros k s; simpl.
  - intros Hk. by exists [], s.
  - destruct s as [|d t]; [done|].
    destruct (N.eqb_spec (lower d) (lower x)) as [E|]; [|done].
    intros (m & rest & -> & Hm & Hk)%IH.
    exists (d :: m), rest. split_and!; try done. csimpl. by rewrite E, Hm.
Qed.

End Inversions.

(** ** The scan of [findall] and [sub] *)

Section Scan.
Variable re : str → option (str * str).
Hypothesis re_progressive : progressive re.

Lemma scan_fuel_stable n m s :
  length s ≤ n → length s ≤ m → scan_fuel n re s = scan_fuel m re s.
Proof.
  revert m s. induction n as [|n IH]; intros m s Hn Hm.
  - destruct s; [|simpl in Hn; lia]. by destruct m.
  - destruct s as [|c t]; [by destruct m|].
    destruct m as [|m]; [simpl in Hm; lia|]. simpl in *.
    destruct (re (c :: t)) as [[g rest]|] eqn:E.
    + apply re_progressive in E. simpl in E. f_equal. apply IH; lia.
    + f_equal. apply IH; lia.
Qed.

(** The length of the text is fuel enough: more fuel gives the same scan. *)
Lemma scan_fuel_enough n s : length s ≤ n → scan_fuel n re s = scan re s.
Proof. intros. by apply scan_fuel_stable. Qed.

(** The two equations of the scan. *)
Lemma scan_hit s g rest :
  re s = Some (g, rest) → scan re s = Hit g :: scan re rest.
Proof.
  intros E. pose proof (re_progressive _ _ _ E) as Hlen.
  destruct s as [|c t]; [simpl in Hlen; lia|].
  unfold scan at 1. simpl. rewrite E. f_equal.
  apply scan_fuel_enough. simpl in Hlen. lia.
Qed.

Lemma scan_miss c t :
  re (c :: t) = None → scan re (c :: t) = Lit c :: scan re t.
Proof. intros E. unfold scan at 1. simpl. by rewrite E. Qed.

(** Where the pattern matches nowhere in a stretch of text, the scan keeps
    that stretch. *)
Lemma scan_skip a b :
  (∀ a1 c a2, a = a1 ++ c :: a2 → re (c :: a2 ++ b) = None) →
  scan re (a ++ b) = (Lit <$> a) ++ scan re b.
Proof.
  induction a as [|c a IH]; intros H; [done|]. csimpl.
  rewrite scan_miss by by apply (H []). f_equal. apply IH.
  intros a1 d a2 ->. by apply (H (c :: a1)).
Qed.

Lemma findall_hit s g rest :
  re s = Some (g, rest) → findall re s = g :: findall re rest.
Proof. intros E. unfold findall. by rewrite (scan_hit _ _ _ E). Qed.

Lemma findall_miss c t :
  re (c :: t) = None → findall re (c :: t) = findall re t.
Proof. intros E. unfold findall. by rewrite (scan_miss _ _ E). Qed.

Lemma sub_pieces_const repl ps notes :
  sub_pieces (λ _ n, (repl, n)) ps notes =
  (mjoin ((λ p, match p with Lit c => [c] | Hit _ => repl end) <$> ps), notes).
Proof.
  induction ps as [|[c|g] ps IH]; csimpl; [done|..]; by rewrite IH.
Qed.

Lemma sub_hit repl s g rest :
  re s = Some (g, rest) → sub re repl s = repl ++ sub re repl rest.
Proof.
  intros E. unfold sub, sub_fn. rewrite (scan_hit _ _ _ E).
  by rewrite !sub_pieces_const.
Qed.

Lemma sub_miss repl c t :
  re (c :: t) = None → sub re repl (c :: t) = c :: sub re repl t.
Proof.
  intros E. unfold sub, sub_fn. rewrite (scan_miss _ _ E).
  by rewrite !sub_pieces_const.
Qed.
End Scan.

(** ** The patterns consume at least one character *)

Lemma app_shorter (run rest : str) : run ≠ [] → length rest < length (run ++ rest).
Proof. destruct run; [done|]. rewrite length_app. simpl. lia. Qed.

Lemma WHITESPACE_RE_progressive : progressive WHITESPACE_RE.
Proof.
  intros s g rest (run & r & -> & Hne & _ & [= <- <-])%re_plus_inv.
  by apply app_shorter.
Qed.

Lemma SENTENCE_PATTERN_progressive : progressive SENTENCE_PATTERN.
Proof.
  intros s g rest (body & r1 & -> & Hne & _ & H)%re_plus_inv.
  apply re_opt_inv in H as (o & r2 & -> & _ & _ & H).
  apply re_star_inv in H as (ws & r3 & -> & _ & [= <- <-]).
  destruct body; [done|]. simpl. rewrite !length_app. lia.
Qed.

Lemma FOOTNOTE_REF_RE_progressive : progressive FOOTNOTE_REF_RE.
Proof.
  intros s g rest (t1 & -> & H)%re_char_inv.
  apply re_char_inv in H as (t2 & -> & H).
  apply re_plus_inv in H as (ident & r1 & -> & _ & _ & H).
  apply re_char_inv in H as (r2 & -> & [= <- <-]).
  simpl. rewrite !length_app. simpl. lia.
Qed.

Lemma INLINE_FOOTNOTE_RE_progressive : progressive INLINE_FOOTNOTE_RE.
Proof.
  intros s g rest (t1 & -> & H)%re_char_inv.
  apply re_word_ci_inv in H as (word & r1 & -> & _ & H).
  apply re_plus_inv in H as (ident & r2 & -> & _ & _ & H).
  apply re_char_inv in H as (r3 & -> & [= <- <-]).
  simpl. rewrite !length_app. simpl. lia.
Qed.

(** ** Stripping *)

Lemma lstrip_stops s : stops is_space (lstrip s).
Proof.
  induction s as [|c t IH]; simpl; [done|].
  destruct (is_space c) eqn:Hc; [done|]. simpl. done.
Qed.

Lemma lstrip_id s : stops is_space s → lstrip s = s.
Proof. destruct s as [|c t]; simpl; [done|]. by intros ->. Qed.

Lemma lstrip_run run rest :
  all_of is_space run → lstrip (run ++ rest) = lstrip rest.
Proof. induction 1 as [|c run Hc _ IH]; simpl; [done|]. by rewrite Hc. Qed.

Lemma rstrip_idemp s : rstrip (rstrip s) = rstrip s.
Proof.
  induction s as [|c t IH]; simpl; [done|].
  destruct (rstrip t) as [|d r] eqn:E.
  - destruct (is_space c) eqn:Hc; simpl; [done|]. by rewrite Hc.
  - simpl in *. by rewrite IH.
Qed.

Lemma rstrip_cons_congr c a b : rstrip a = rstrip b → rstrip (c :: a) = rstrip (c :: b).
Proof. simpl. by intros ->. Qed.

Lemma rstrip_stops s : stops is_space s → stops is_space (rstrip s).
Proof.
  destruct s as [|c t]; simpl; [done|]. intros Hc.
  destruct (rstrip t); [by rewrite Hc|done].
Qed.

Lemma rstrip_nil_iff s : rstrip s = [] ↔ all_of is_space s.
Proof.
  induction s as [|c t IH]; simpl; [by split; [constructor|]|].
  destruct (rstrip t) as [|d r] eqn:E.
  - destruct (is_space c) eqn:Hc; split; try done.
    + intros _. constructor; [done|]. by apply IH.
    + inversion 1; congruence.
  - split; [done|]. inversion 1 as [|?? _ Ht]; subst. by apply IH in Ht.
Qed.

(** [rstrip] leaves alone whatever precedes a character that stays. *)
Lemma rstrip_app a b : rstrip b ≠ [] → rstrip (a ++ b) = a ++ rstrip b.
Proof.
  intros Hb. induction a as [|c a IH]; simpl; [done|].
  rewrite IH. destruct (a ++ rstrip b) eqn:E; [|done].
  by apply app_eq_nil in E as [_ ?].
Qed.

Lemma strip_stops s : stops is_space (strip s).
Proof. apply rstrip_stops, lstrip_stops. Qed.

Lemma strip_idemp s : strip (strip s) = strip s.
Proof.
  unfold strip. rewrite (lstrip_id (rstrip _)) by apply strip_stops.
  apply rstrip_idemp.
Qed.

(** ** Whitespace normalization *)

Lemma WHITESPACE_RE_run run rest :
  all_of is_space run → run ≠ [] → stops is_space rest →
  WHITESPACE_RE (run ++ rest) = Some (run, rest).
Proof. intros. by apply re_plus_longest. Qed.

Lemma WHITESPACE_RE_none s : stops is_space s → WHITESPACE_RE s = None.
Proof. apply re_plus_stops. Qed.

Lemma collapse_drop c d t :
  is_space c = true → is_space d = true →
  collapse (c :: d :: t) = collapse (d :: t).
Proof. intros Hc Hd. simpl. by rewrite Hc, Hd. Qed.

Lemma collapse_last c t :
  is_space c = true → stops is_space t →
  collapse (c :: t) = SPACE :: collapse t.
Proof.
  intros Hc Ht. simpl. rewrite Hc. destruct t as [|d t]; [done|].
  simpl in Ht. by rewrite Ht.
Qed.

Lemma collapse_keep c t :
  is_space c = false → collapse (c :: t) = c :: collapse t.
Proof. intros Hc. simpl. by rewrite Hc. Qed.

Lemma collapse_run run rest :
  all_of is_space run → run ≠ [] → stops is_space rest →
  collapse (run ++ rest) = SPACE :: collapse rest.
Proof.
  induction 1 as [|c run Hc Hrun IH]; [done|]. intros _ Hs.
  destruct run as [|d run].
  - by apply collapse_last.
  - inversion Hrun as [|?? Hd _]; subst.
    change ((c :: d :: run) ++ rest) with (c :: d :: run ++ rest).
    rewrite collapse_drop by done. by apply IH.
Qed.

(** [sub] with the whitespace pattern is [collapse]. *)
Lemma sub_whitespace_collapse s :
  sub WHITESPACE_RE (py " ") s = collapse s.
Proof.
  remember (length s) as n eqn:Hn. revert s Hn.
  induction (lt_wf n) as [n _ IH]. intros [|c t] ->; [done|].
  destruct (is_space c) eqn:Hc.
  - destruct (span_total is_space t) as (run & rest & -> & Hrun & Hs).
    assert (all_of is_space (c :: run)) as Hrun' by by constructor.
    change (c :: run ++ rest) with ((c :: run) ++ rest).
    rewrite collapse_run by done.
    assert (WHITESPACE_RE ((c :: run) ++ rest) = Some (c :: run, rest)) as E
      by by apply WHITESPACE_RE_run.
    simpl app in *. rewrite (sub_hit _ WHITESPACE_RE_progressive _ _ _ _ E).
    simpl. f_equal. eapply IH; [|done]. simpl. rewrite length_app. lia.
  - rewrite sub_miss by by apply WHITESPACE_RE_none.
    rewrite collapse_keep by done. f_equal. eapply IH; [|done]. simpl. lia.
Qed.

Lemma normalize_whitespace_collapse s :
  normalize_whitespace s = strip (collapse s).
Proof. unfold normalize_whitespace. by rewrite sub_whitespace_collapse. Qed.

Lemma collapse_stops s : stops is_space s → stops is_space (collapse s).
Proof. destruct s as [|c t]; [done|]. intros Hc. by rewrite collapse_keep. Qed.

Lemma collapse_nil_inv s : collapse s = [] → s = [].
Proof.
  induction s as [|c t IH]; simpl; [done|].
  destruct (is_space c); [|done].
  destruct t as [|d t']; [done|]. destruct (is_space d); [|done].
  intros E. by apply IH in E.
Qed.

Lemma collapse_single_spaced s : single_spaced (collapse s).
Proof.
  induction s as [|c t IH]; simpl; [done|].
  destruct (is_space c) eqn:Hc.
  - destruct t as [|d t']; [done|].
    destruct (is_space d) eqn:Hd; [done|].
    split; [|done]. intros _. split; [done|]. by apply collapse_stops.
  - split; [|done]. congruence.
Qed.

Lemma single_spaced_lstrip s : single_spaced s → single_spaced (lstrip s).
Proof.
  induction s as [|c t IH]; [done|]. intros H. simpl lstrip.
  destruct (is_space c); [|done]. apply IH, H.
Qed.

Lemma single_spaced_rstrip s : single_spaced s → single_spaced (rstrip s).
Proof.
  induction s as [|c t IH]; simpl; [done|]. intros [Hc Ht].
  pose proof (rstrip_stops t) as Hs.
  destruct (rstrip t) as [|d r] eqn:E.
  - destruct (is_space c) eqn:Hc'; [done|]. simpl. split; [congruence|done].
  - split; [|by apply IH]. intros [-> ?]%Hc. auto.
Qed.

Lemma collapse_id s : single_spaced s → collapse s = s.
Proof.
  induction s as [|c t IH]; [done|]. intros [Hc Ht].
  destruct (is_space c) eqn:Hc'.
  - destruct Hc as [-> Hs]; [done|]. rewrite collapse_last by done.
    by rewrite IH.
  - rewrite collapse_keep by done. by rewrite IH.
Qed.

Lemma normalize_whitespace_normalized s : normalized (normalize_whitespace s).
Proof.
  rewrite normalize_whitespace_collapse. split; [|apply strip_idemp].
  apply single_spaced_rstrip, single_spaced_lstrip, collapse_single_spaced.
Qed.

Lemma normalized_fixed s : normalized s → normalize_whitespace s = s.
Proof.
  intros [Hs Hstrip]. rewrite normalize_whitespace_collapse.
  by rewrite collapse_id.
Qed.

Lemma normalize_whitespace_idemp s :
  normalize_whitespace (normalize_whitespace s) = normalize_whitespace s.
Proof. apply normalized_fixed, normalize_whitespace_normalized. Qed.

(** Whitespace at the ends of a text does not change its normal form. *)
Lemma collapse_lstrip s : lstrip (collapse s) = collapse (lstrip s).
Proof.
  induction s as [|c t IH]; [done|].
  destruct (is_space c) eqn:Hc.
  - simpl lstrip at 2. rewrite Hc, <- IH.
    destruct t as [|d t]; [simpl; by rewrite Hc|].
    destruct (is_space d) eqn:Hd.
    + by rewrite collapse_drop.
    + rewrite collapse_last by done. done.
  - simpl lstrip at 2. rewrite Hc, collapse_keep by done. simpl. by rewrite Hc.
Qed.

Lemma collapse_rstrip_run s w :
  all_of is_space w → rstrip (collapse (s ++ w)) = rstrip (collapse s).
Proof.
  intros Hw. destruct w as [|e w]; [by rewrite app_nil_r|].
  induction s as [|c t IH].
  - simpl app. rewrite <- (app_nil_r (e :: w)), collapse_run by done. done.
  - destruct (is_space c) eqn:Hc.
    + destruct t as [|d t].
      * change ([c] ++ e :: w) with (c :: e :: w).
        rewrite <- (app_nil_r (c :: e :: w)).
        rewrite collapse_run; [|by constructor|done..].
        rewrite collapse_last by done. done.
      * destruct (is_space d) eqn:Hd.
        -- change ((c :: d :: t) ++ e :: w) with (c :: d :: (t ++ e :: w)).
           rewrite !collapse_drop by done. apply IH.
        -- change ((c :: d :: t) ++ e :: w) with (c :: (d :: t) ++ e :: w).
           rewrite !collapse_last by done. apply rstrip_cons_congr, IH.
    + change ((c :: t) ++ e :: w) with (c :: (t ++ e :: w)).
      rewrite !collapse_keep by done. apply rstrip_cons_congr, IH.
Qed.

Lemma normalize_whitespace_lstrip s :
  normalize_whitespace (lstrip s) = normalize_whitespace s.
Proof.
  rewrite !normalize_whitespace_collapse. unfold strip.
  rewrite !collapse_lstrip. f_equal. f_equal.
  apply lstrip_id, lstrip_stops.
Qed.

Lemma normalize_whitespace_leading w s :
  all_of is_space w → normalize_whitespace (w ++ s) = normalize_whitespace s.
Proof.
  intros Hw. rewrite <- (normalize_whitespace_lstrip (w ++ s)).
  rewrite lstrip_run by done. apply normalize_whitespace_lstrip.
Qed.

Lemma lstrip_nil_iff s : lstrip s = [] ↔ all_of is_space s.
Proof.
  induction s as [|c t IH]; simpl; [by split; [constructor|]|].
  destruct (is_space c) eqn:Hc.
  - rewrite IH. split; [by constructor|]. by inversion 1.
  - split; [done|]. inversion 1; congruence.
Qed.

Lemma lstrip_app a b :
  ¬ all_of is_space a → lstrip (a ++ b) = lstrip a ++ b.
Proof.
  induction a as [|c a IH]; intros Ha; [destruct Ha; constructor|]. simpl.
  destruct (is_space c) eqn:Hc; [|done].
  apply IH. intros H. apply Ha. by constructor.
Qed.

(** What [rstrip] and [lstrip] remove is whitespace. *)
Lemma rstrip_split s : ∃ w, s = rstrip s ++ w ∧ all_of is_space w.
Proof.
  induction s as [|c t (w & E & Hw)]; [by exists []; split; [|constructor]|].
  simpl. destruct (rstrip t) as [|d r] eqn:Er.
  - simpl in E. subst t. destruct (is_space c) eqn:Hc.
    + exists (c :: w). split; [done|by constructor].
    + by exists w.
  - exists w. split; [|done]. simpl. f_equal. exact E.
Qed.

Lemma lstrip_split s : ∃ w, s = w ++ lstrip s ∧ all_of is_space w.
Proof.
  induction s as [|c t (w & E & Hw)]; [by exists []; split; [|constructor]|].
  simpl. destruct (is_space c) eqn:Hc.
  - exists (c :: w). split; [simpl; f_equal; exact E|by constructor].
  - exists []. split; [done|constructor].
Qed.

Lemma normalize_whitespace_trailing s w :
  all_of is_space w → normalize_whitespace (s ++ w) = normalize_whitespace s.
Proof.
  intros Hw. rewrite !normalize_whitespace_collapse. unfold strip.
  rewrite !collapse_lstrip.
  destruct (decide (all_of is_space s)) as [Hs|Hs].
  - assert (all_of is_space (s ++ w)) as Hsw by by apply Forall_app.
    apply lstrip_nil_iff in Hs, Hsw. by rewrite Hs, Hsw.
  - rewrite lstrip_app by done. by apply collapse_rstrip_run.
Qed.

Lemma normalize_whitespace_rstrip s :
  normalize_whitespace (rstrip s) = normalize_whitespace s.
Proof.
  destruct (rstrip_split s) as (w & E & Hw). rewrite E at 2.
  by rewrite normalize_whitespace_trailing.
Qed.

Lemma normalize_whitespace_strip s :
  normalize_whitespace (strip s) = normalize_whitespace s.
Proof.
  unfold strip. by rewrite normalize_whitespace_rstrip, normalize_whitespace_lstrip.
Qed.

Lemma normalize_whitespace_nil_inv s :
  normalize_whitespace s = [] → all_of is_space s.
Proof.
  rewrite normalize_whitespace_collapse. unfold strip.
  intros H%rstrip_nil_iff%lstrip_nil_iff.
  rewrite lstrip_id in H by apply lstrip_stops.
  rewrite collapse_lstrip in H. apply collapse_nil_inv in H.
  by apply lstrip_nil_iff.
Qed.

(** ** The sentence segmenter *)

Lemma terminator_not_space c : is_terminator c = true → is_space c = false.
Proof.
  unfold is_terminator. intros H.
  repeat (apply orb_prop in H as [H|H]); apply N.eqb_eq in H; by subst.
Qed.

(** The pattern does not match at a terminator. *)
Lemma SENTENCE_PATTERN_terminator c t :
  is_terminator c = true → SENTENCE_PATTERN (c :: t) = None.
Proof.
  intros Hc. apply re_plus_stops. simpl. unfold not_terminator. by rewrite Hc.
Qed.

(** A text without terminator is one match. *)
Lemma SENTENCE_PATTERN_fragment body :
  all_of not_terminator body → body ≠ [] →
  SENTENCE_PATTERN body = Some (body, []).
Proof.
  intros Hb Hne. unfold SENTENCE_PATTERN.
  rewrite <- (app_nil_r body) at 1.
  apply re_plus_longest; [done..|]. simpl. rewrite re_star_nil.
  by rewrite !app_nil_r.
Qed.

(** A match runs up to the first terminator, takes it, and takes the
    whitespace behind it. *)
Lemma SENTENCE_PATTERN_sentence body t ws rest :
  all_of not_terminator body → body ≠ [] → is_terminator t = true →
  all_of is_space ws → stops is_space rest →
  SENTENCE_PATTERN (body ++ t :: ws ++ rest) = Some (body ++ [t] ++ ws, rest).
Proof.
  intros Hb Hne Ht Hws Hrest. unfold SENTENCE_PATTERN.
  apply re_plus_longest; [done| |done|].
  - simpl. unfold not_terminator. by rewrite Ht.
  - simpl. rewrite Ht. by erewrite re_star_longest.
Qed.

Lemma ends_sentence_nil : ends_sentence [].
Proof. by intros c. Qed.

Lemma ends_sentence_suffix a b : ends_sentence (a ++ b) → ends_sentence b.
Proof.
  intros H c Hc. apply H. rewrite last_app. by rewrite Hc.
Qed.

Lemma ends_sentence_not_space pre :
  ends_sentence pre → pre ≠ [] → ¬ all_of is_space pre.
Proof.
  intros H Hne Hall. apply last_is_Some in Hne as [c Hc].
  pose proof (H c Hc) as Ht%terminator_not_space.
  apply last_Some in Hc as [pre' ->].
  apply Forall_app in Hall as [_ Hall]. inversion Hall; congruence.
Qed.

Lemma ends_sentence_not_body pre :
  ends_sentence pre → pre ≠ [] → ¬ all_of not_terminator pre.
Proof.
  intros H Hne Hall. apply last_is_Some in Hne as [c Hc].
  pose proof (H c Hc) as Ht.
  apply last_Some in Hc as [pre' ->].
  apply Forall_app in Hall as [_ Hall]. inversion Hall as [|?? Hn _]; subst.
  unfold not_terminator in Hn. by rewrite Ht in Hn.
Qed.

(** The scan of a text whose last stretch [frag] has no terminator ends with
    a match that is [frag] without, at most, whitespace at its start. *)
Lemma findall_final_fragment pre frag :
  ends_sentence pre → all_of not_terminator frag → ¬ all_of is_space frag →
  ∃ l w x, findall SENTENCE_PATTERN (pre ++ frag) = l ++ [x] ∧
           frag = w ++ x ∧ all_of is_space w ∧ x ≠ [].
Proof.
  intros Hpre Hfrag Hns.
  assert (∀ w x, frag = w ++ x → all_of is_space w →
          findall SENTENCE_PATTERN x = [x] ∧ x ≠ []) as Htail.
  { intros w x -> Hw. apply Forall_app in Hfrag as [_ Hx].
    assert (x ≠ []) as Hne.
    { intros ->. apply Hns. by rewrite app_nil_r. }
    split; [|done].
    by rewrite (findall_hit _ SENTENCE_PATTERN_progressive _ _ _
                  (SENTENCE_PATTERN_fragment _ Hx Hne)). }
  remember (length pre) as n eqn:Hn. revert pre Hn Hpre.
  induction (lt_wf n) as [n _ IH]. intros pre -> Hpre.
  destruct pre as [|c pre1].
  { exists [], [], frag. destruct (Htail [] frag) as [E Hne]; [done|constructor|].
    split_and!; try done. constructor. }
  destruct (is_terminator c) eqn:Hc.
  { (* no match at a terminator: the scan moves on *)
    simpl. rewrite findall_miss by by apply SENTENCE_PATTERN_terminator.
    eapply IH; [|done|]; [simpl; lia|].
    by apply (ends_sentence_suffix [c]). }
  destruct (span_total not_terminator (c :: pre1))
    as (body & r & E & Hbody & Hr).
  destruct r as [|t pre2].
  { rewrite app_nil_r in E. subst body.
    by apply ends_sentence_not_body in Hbody. }
  assert (is_terminator t = true) as Ht.
  { simpl in Hr. unfold not_terminator in Hr. by destruct (is_terminator t). }
  assert (body ≠ []) as Hbne.
  { intros ->. simpl in E. injection E as <- <-. congruence. }
  rewrite E in Hpre |- *. rewrite <- app_assoc. simpl.
  assert (ends_sentence pre2) as Hpre2.
  { apply (ends_sentence_suffix (body ++ [t])). by rewrite <- app_assoc. }
  assert (length pre2 < length (c :: pre1)) as Hlen.
  { rewrite E, length_app. simpl. lia. }
  destruct pre2 as [|e pre2'].
  - (* the terminator ends [pre]: the whitespace behind it is in [frag] *)
    destruct (span_total is_space frag) as (ws & x & Ex & Hws & Hx).
    destruct (Htail ws x Ex Hws) as [Efind Hxne].
    simpl. rewrite Ex.
    rewrite (findall_hit _ SENTENCE_PATTERN_progressive _ _ _
               (SENTENCE_PATTERN_sentence _ _ _ _ Hbody Hbne Ht Hws Hx)).
    rewrite Efind. exists [body ++ [t] ++ ws], ws, x. by split_and!.
  - (* the whitespace behind the terminator is in [pre] *)
    destruct (span_total is_space (e :: pre2')) as (ws & pre3 & E3 & Hws & Hs3).
    assert (pre3 ≠ []) as Hne3.
    { intros ->. rewrite app_nil_r in E3. subst ws.
      by apply ends_sentence_not_space in Hws. }
    rewrite E3 in Hpre2, Hlen |- *. rewrite <- app_assoc.
    assert (stops is_space (pre3 ++ frag)) as Hs3'.
    { by destruct pre3. }
    rewrite (findall_hit _ SENTENCE_PATTERN_progressive _ _ _
               (SENTENCE_PATTERN_sentence _ _ _ _ Hbody Hbne Ht Hws Hs3')).
    destruct (IH (length pre3)) with (pre := pre3)
      as (l & w & x & El & Ew & Hw & Hxne); [|done|..].
    + rewrite length_app in Hlen. lia.
    + by apply (ends_sentence_suffix ws).
    + exists ((body ++ [t] ++ ws) :: l), w, x. rewrite El. by split_and!.
Qed.

Lemma normalize_whitespace_space s :
  all_of is_space s → normalize_whitespace s = [].
Proof.
  intros Hs. rewrite <- (app_nil_r s). by rewrite normalize_whitespace_leading.
Qed.

Lemma all_of_lstrip p s : all_of p s → all_of p (lstrip s).
Proof.
  destruct (lstrip_split s) as (w & E & _). rewrite E at 1.
  by intros [_ ?]%Forall_app.
Qed.

Lemma all_of_rstrip p s : all_of p s → all_of p (rstrip s).
Proof.
  destruct (rstrip_split s) as (w & E & _). rewrite E at 1.
  by intros [? _]%Forall_app.
Qed.

(** Stripping a paragraph keeps its shape: sentences, then a last stretch
    without terminator. *)
Lemma strip_final_fragment pre frag :
  ends_sentence pre → all_of not_terminator frag → ¬ all_of is_space frag →
  ∃ pre' frag', strip (pre ++ frag) = pre' ++ frag' ∧ ends_sentence pre' ∧
    all_of not_terminator frag' ∧
    normalize_whitespace frag' = normalize_whitespace frag.
Proof.
  intros Hpre Hfrag Hns. destruct pre as [|c pre1].
  - exists [], (strip frag). split_and!; [done|apply ends_sentence_nil| |].
    + by apply all_of_rstrip, all_of_lstrip.
    + apply normalize_whitespace_strip.
  - exists (lstrip (c :: pre1)), (rstrip frag).
    assert (¬ all_of is_space (c :: pre1)) as Hpns
      by by apply ends_sentence_not_space.
    split_and!.
    + unfold strip. rewrite lstrip_app by done. apply rstrip_app.
      by rewrite rstrip_nil_iff.
    + destruct (lstrip_split (c :: pre1)) as (w & E & _). rewrite E in Hpre.
      by apply ends_sentence_suffix in Hpre.
    + by apply all_of_rstrip.
    + apply normalize_whitespace_rstrip.
Qed.

Lemma split_sentences_nil : split_sentences [] = [].
Proof. done. Qed.

Lemma split_sentences_elem paragraph s :
  s ∈ split_sentences paragraph → normalized s ∧ s ≠ [].
Proof.
  unfold split_sentences. case_decide.
  - by intros ?%elem_of_nil.
  - intros [Hne (x & -> & _)%list_elem_of_fmap]%list_elem_of_filter.
    split; [apply normalize_whitespace_normalized|done].
Qed.

Lemma split_sentences_final pre frag :
  ends_sentence pre → all_of not_terminator frag → ¬ all_of is_space frag →
  last (split_sentences (pre ++ frag)) = Some (normalize_whitespace frag).
Proof.
  intros Hpre Hfrag Hns.
  destruct (strip_final_fragment pre frag) as (pre' & frag' & E & Hpre' & Hfrag' & En);
    [done..|].
  assert (¬ all_of is_space frag') as Hns'.
  { intros H%normalize_whitespace_space. rewrite En in H.
    by apply normalize_whitespace_nil_inv in H. }
  destruct (findall_final_fragment pre' frag') as (l & w & x & El & Ew & Hw & Hx);
    [done..|].
  unfold split_sentences. rewrite E, El.
  case_decide as E0.
  { apply app_eq_nil in E0 as [_ ->]. destruct Hns'. constructor. }
  rewrite fmap_app, filter_app.
  change (normalize_whitespace <$> [x]) with [normalize_whitespace x].
  assert (normalize_whitespace x = normalize_whitespace frag) as Ex.
  { rewrite <- En, Ew. by rewrite normalize_whitespace_leading. }
  rewrite Ex, filter_cons_True by by intros H%normalize_whitespace_nil_inv.
  by rewrite filter_nil, last_snoc.
Qed.

(** ** The note extractor *)

Lemma sub_pieces_app repl ps1 ps2 notes :
  sub_pieces repl (ps1 ++ ps2) notes =
  let '(out1, notes1) := sub_pieces repl ps1 notes in
  let '(out2, notes2) := sub_pieces repl ps2 notes1 in
  (out1 ++ out2, notes2).
Proof.
  revert notes. induction ps1 as [|[c|g] ps1 IH]; intros notes; simpl.
  - by destruct (sub_pieces repl ps2 notes).
  - rewrite IH. destruct (sub_pieces repl ps1 notes) as [o1 n1].
    by destruct (sub_pieces repl ps2 n1).
  - destruct (repl g notes) as [r n0]. rewrite IH.
    destruct (sub_pieces repl ps1 n0) as [o1 n1].
    destruct (sub_pieces repl ps2 n1). by rewrite app_assoc.
Qed.

Lemma sub_pieces_lits repl a notes :
  sub_pieces repl (Lit <$> a) notes = (a, notes).
Proof. induction a as [|c a IH]; csimpl; [done|]. by rewrite IH. Qed.

(** The replacers only append to [notes]. *)
Lemma sub_pieces_notes ps notes :
  sub_pieces footnote_replacer ps notes =
  ((sub_pieces footnote_replacer ps []).1,
   notes ++ (sub_pieces footnote_replacer ps []).2).
Proof.
  revert notes. induction ps as [|[c|g] ps IH]; intros notes; simpl.
  - by rewrite app_nil_r.
  - rewrite (IH notes). by destruct (sub_pieces footnote_replacer ps []).
  - rewrite (IH (notes ++ [strip g])), (IH [strip g]). simpl.
    by rewrite <- app_assoc.
Qed.

Lemma re_char_bracket_skip {R} (k : str → option R) (a b : str) :
  LBRACKET ∉ a →
  ∀ a1 c a2, a = a1 ++ c :: a2 → re_char LBRACKET k (c :: a2 ++ b) = None.
Proof.
  intros Ha a1 c a2 ->. apply re_char_ne. intros ->. apply Ha.
  apply elem_of_app. right. by left.
Qed.




Lemma not_rbracket_all (ident : str) :
  RBRACKET ∉ ident → all_of not_rbracket ident.
Proof.
  intros H. apply Forall_forall. intros c Hc. unfold not_rbracket.
  destruct (N.eqb_spec c RBRACKET) as [->|]; [|done]. by destruct H.
Qed.



(** ** The parser: numbering and references *)

Lemma counts_from_1_snoc numbers :
  counts_from_1 numbers → counts_from_1 (numbers ++ [length numbers + 1]).
Proof.
  unfold counts_from_1. intros E. rewrite length_app. simpl.
  by rewrite Nat.add_1_r, seq_S, <- E.
Qed.

Lemma counts_from_1_increasing numbers :
  counts_from_1 numbers → increasing_from_1 numbers.
Proof.
  unfold counts_from_1. intros E. split.
  - rewrite E. destruct (length numbers); simpl; congruence.
  - intros i j a b Hij. rewrite E. intros Ha Hb.
    apply lookup_seq in Ha as [-> _]. apply lookup_seq in Hb as [-> _]. lia.
Qed.

Lemma number_sentences_numbers number sentences_raw :
  sentence_number <$> number_sentences number sentences_raw =
  seq number (length (number_sentences number sentences_raw)).
Proof.
  revert number. induction sentences_raw as [|x l IH]; intros number; [done|].
  simpl. destruct (extract_notes x) as [cleaned notes]. csimpl.
  by rewrite IH.
Qed.

Lemma number_sentences_counts sentences_raw :
  counts_from_1 (sentence_number <$> number_sentences 1 sentences_raw).
Proof.
  unfold counts_from_1. rewrite length_fmap. apply number_sentences_numbers.
Qed.

Lemma append_paragraph_numbered i sents chs :
  chapters_numbered chs → i < length chs →
  counts_from_1 (sentence_number <$> sents) →
  ∃ chs', append_paragraph i sents chs = Some chs' ∧
          chapters_numbered chs' ∧ length chs' = length chs.
Proof.
  intros [Hnum Hall] Hi Hs. unfold append_paragraph.
  destruct (lookup_lt_is_Some_2 chs i Hi) as [ch Hch]. rewrite Hch. simpl.
  eexists. split; [done|]. split; [|by rewrite length_insert].
  split.
  - unfold counts_from_1 in *. rewrite list_fmap_insert, length_insert. simpl.
    rewrite list_insert_id; [done|]. by rewrite list_lookup_fmap, Hch.
  - apply Forall_insert; [done|].
    pose proof (Forall_lookup_1 _ _ _ _ Hall Hch) as [Hp Hps].
    split; simpl.
    + rewrite fmap_app. simpl. rewrite <- (length_fmap paragraph_number).
      by apply counts_from_1_snoc.
    + apply Forall_app. split; [done|]. by repeat constructor.
Qed.

Lemma well_formed_set_paragraph_lines v st :
  well_formed st → well_formed (set_paragraph_lines v st).
Proof. done. Qed.

Ltac flush_keeps_chapters Ecur :=
  eexists; split; [done|];
  split; [by apply well_formed_set_paragraph_lines|];
  simpl; by rewrite Ecur.

Lemma flush_paragraph_well_formed st :
  well_formed st →
  ∃ st', flush_paragraph st = Some st' ∧ well_formed st' ∧
         book_title st' = book_title st ∧
         book_metadata st' = book_metadata st ∧
         current_chapter st' = current_chapter st ∧
         length (chapters st') = length (chapters st) ∧
         paragraph_lines st' = [].
Proof.
  intros Hwf. pose proof Hwf as (Hch & Hcur & Hmeta). unfold flush_paragraph.
  destruct (current_chapter st) as [i|] eqn:Ecur.
  2:{ flush_keeps_chapters Ecur. }
  case_decide; [flush_keeps_chapters Ecur|].
  case_decide; [flush_keeps_chapters Ecur|].
  match goal with
  | |- context [append_paragraph i ?sents ?chs] =>
      destruct (append_paragraph_numbered i sents chs) as (chs' & -> & Hch' & Hlen)
  end; [done|by apply Hcur|apply number_sentences_counts|].
  simpl in Hlen. simpl. eexists. split; [done|]. simpl. rewrite Ecur, Hlen.
  split; [|done]. split; [done|]. split; [|done]. simpl.
  intros j. rewrite Ecur, Hlen. apply Hcur.
Qed.

Lemma record_author_well_formed candidate st :
  well_formed st → well_formed (record_author candidate st).
Proof.
  intros (Hch & Hcur & Hmeta). unfold record_author.
  destruct (BY_LINE_RE candidate) as [name|]; [|done].
  case_decide as Hnone; [|done]. split_and!; try done. simpl.
  destruct Hmeta as [->|[author E]].
  - right. eexists. by rewrite insert_empty.
  - rewrite E, lookup_singleton_eq in Hnone. done.
Qed.

(** Once an author is recorded, the test for a further one changes nothing. *)
Lemma record_author_recorded candidate st v :
  book_metadata st !! "authors" = Some v → record_author candidate st = st.
Proof.
  intros Hv. unfold record_author. destruct (BY_LINE_RE candidate); [|done].
  case_decide; [congruence|done].
Qed.

Lemma chapters_numbered_snoc chs title :
  chapters_numbered chs →
  chapters_numbered (chs ++ [{| chapter_number := length chs + 1;
                                chapter_title := title; paragraphs := [] |}]).
Proof.
  intros [Hnum Hall]. split.
  - rewrite fmap_app. simpl. rewrite <- (length_fmap chapter_number).
    by apply counts_from_1_snoc.
  - apply Forall_app. split; [done|]. repeat constructor.
Qed.

Lemma open_chapter_well_formed st :
  well_formed st →
  well_formed (open_chapter st) ∧ is_Some (current_chapter (open_chapter st)) ∧
  book_title (open_chapter st) = book_title st ∧
  book_metadata (open_chapter st) = book_metadata st ∧
  paragraph_lines (open_chapter st) = paragraph_lines st.
Proof.
  intros (Hch & Hcur & Hmeta). unfold open_chapter, ensure_chapter.
  destruct (current_chapter st) as [i|] eqn:Ecur; simpl.
  - by split_and!.
  - split_and!; try done. split_and!; try done.
    + by apply chapters_numbered_snoc.
    + simpl. intros j [= <-]. rewrite length_app. simpl. lia.
Qed.

Lemma step_well_formed st raw_line :
  well_formed st → ∃ st', step st raw_line = Some st' ∧ well_formed st'.
Proof.
  intros Hwf. unfold step.
  destruct (HEADING_RE (rstrip raw_line)) as [[hashes group2]|].
  - destruct (flush_paragraph_well_formed st Hwf)
      as (st1 & -> & Hwf1 & _). simpl.
    case_decide.
    + eexists. split; [done|]. destruct Hwf1 as (? & ? & ?). by split_and!.
    + eexists. split; [done|].
      pose proof (record_author_well_formed (strip group2) st1 Hwf1)
        as (Hch & Hcur & Hmeta).
      split_and!; simpl; try done.
      * by apply chapters_numbered_snoc.
      * intros j [= <-]. rewrite length_app. simpl. lia.
  - case_decide.
    + destruct (flush_paragraph_well_formed st Hwf) as (st1 & -> & Hwf1 & _). eauto.
    + pose proof (record_author_well_formed (strip (rstrip raw_line)) st Hwf) as Hwf1.
      apply open_chapter_well_formed in Hwf1 as (Hwf2 & _).
      destruct (startswith _ _).
      * destruct (flush_paragraph_well_formed _ Hwf2) as (st3 & -> & Hwf3 & _).
        simpl.
        destruct (flush_paragraph_well_formed
                    (set_paragraph_lines [strip (rstrip raw_line)] st3))
          as (st4 & -> & Hwf4 & _); [by apply well_formed_set_paragraph_lines|].
        eauto.
      * eexists. split; [done|]. by apply well_formed_set_paragraph_lines.
Qed.

Lemma run_lines_well_formed lines st :
  well_formed st → ∃ st', run_lines lines st = Some st' ∧ well_formed st'.
Proof.
  revert st. induction lines as [|raw_line rest IH]; intros st Hwf; simpl.
  - eauto.
  - destruct (step_well_formed st raw_line Hwf) as (st1 & -> & Hwf1). simpl.
    by apply IH.
Qed.

Lemma run_lines_app lines1 lines2 st :
  run_lines (lines1 ++ lines2) st = run_lines lines1 st ≫= run_lines lines2.
Proof.
  revert st. induction lines1 as [|raw_line rest IH]; intros st; simpl; [done|].
  destruct (step st raw_line) as [st1|]; simpl; [apply IH|done].
Qed.

Lemma initial_state_well_formed : well_formed initial_state.
Proof.
  split_and!; [split; [done|constructor]|done|by left].
Qed.

(** ** The parser: the author *)

Lemma flush_paragraph_keeps st st' :
  flush_paragraph st = Some st' →
  book_metadata st' = book_metadata st ∧ book_title st' = book_title st.
Proof.
  unfold flush_paragraph. destruct (current_chapter st); [|by intros [= <-]].
  case_decide; [by intros [= <-]|]. case_decide; [by intros [= <-]|].
  destruct (append_paragraph _ _ _); simpl; [|done]. by intros [= <-].
Qed.

Lemma open_chapter_metadata st :
  book_metadata (open_chapter st) = book_metadata st.
Proof. unfold open_chapter, ensure_chapter. by destruct (current_chapter st). Qed.

(** The author test looks at [book_metadata] only. *)
Lemma record_author_metadata candidate st1 st2 :
  book_metadata st1 = book_metadata st2 →
  book_metadata (record_author candidate st1) =
  book_metadata (record_author candidate st2).
Proof.
  intros E. unfold record_author. destruct (BY_LINE_RE candidate); [|done].
  rewrite E. by case_decide.
Qed.

(** What one line does to the title and to [book_metadata]: the heading
    that becomes the title leaves [book_metadata] alone, and so does a blank
    line; on every other line the author test is made, on the heading text
    or on the stripped line. *)
Lemma step_metadata st raw_line st' :
  step st raw_line = Some st' →
  match HEADING_RE (rstrip raw_line) with
  | Some (hashes, group2) =>
      if decide (book_title st = None ∧ length hashes = 1)
      then book_title st' = Some (strip group2) ∧
           book_metadata st' = book_metadata st
      else book_metadata st' = book_metadata (record_author (strip group2) st)
  | None =>
      if decide (strip (rstrip raw_line) = [])
      then book_metadata st' = book_metadata st
      else book_metadata st' =
           book_metadata (record_author (strip (rstrip raw_line)) st)
  end.
Proof.
  unfold step. intros Hstep.
  destruct (HEADING_RE (rstrip raw_line)) as [[hashes group2]|].
  - destruct (flush_paragraph st) as [st1|] eqn:E1; [|done].
    apply flush_paragraph_keeps in E1 as [Em Et]. simpl in Hstep.
    rewrite Et in Hstep. case_decide; injection Hstep as <-; simpl; [done|].
    by apply record_author_metadata.
  - case_decide; [by apply flush_paragraph_keeps in Hstep as [? _]|].
    destruct (startswith _ _).
    + destruct (flush_paragraph _) as [st3|] eqn:E3; [|done].
      apply flush_paragraph_keeps in E3 as [E3 _]. simpl in Hstep.
      apply flush_paragraph_keeps in Hstep as [E4 _]. simpl in E4.
      rewrite open_chapter_metadata in E3. congruence.
    + injection Hstep as <-. simpl. apply open_chapter_metadata.
Qed.

Lemma step_keeps_author st raw_line st' v :
  step st raw_line = Some st' → book_metadata st !! "authors" = Some v →
  book_metadata st' = book_metadata st.
Proof.
  intros Hstep%step_metadata Hv.
  destruct (HEADING_RE (rstrip raw_line)) as [[hashes group2]|];
    case_decide; try tauto; by rewrite (record_author_recorded _ st v) in Hstep.
Qed.

Lemma run_lines_keeps_author lines st st' v :
  run_lines lines st = Some st' → book_metadata st !! "authors" = Some v →
  book_metadata st' = book_metadata st.
Proof.
  revert st. induction lines as [|raw_line rest IH]; intros st; simpl.
  - by intros [= <-].
  - destruct (step st raw_line) as [st1|] eqn:E1; [|done]. simpl.
    intros Hrun Hv. pose proof (step_keeps_author _ _ _ _ E1 Hv) as E.
    rewrite <- E. apply IH; [done|]. by rewrite E.
Qed.

Lemma record_author_sets candidate st v :
  book_metadata st !! "authors" = None →
  book_metadata (record_author candidate st) !! "authors" = Some v →
  ∃ name, BY_LINE_RE candidate = Some name ∧ v = [normalize_whitespace name].
Proof.
  intros Hnone. unfold record_author.
  destruct (BY_LINE_RE candidate) as [name|]; [|congruence].
  case_decide; [|congruence]. simpl. rewrite lookup_insert_eq.
  intros [= <-]. eauto.
Qed.

Lemma record_author_new candidate st name :
  BY_LINE_RE candidate = Some name → book_metadata st !! "authors" = None →
  book_metadata (record_author candidate st) !! "authors" =
  Some [normalize_whitespace name].
Proof.
  intros E Hnone. unfold record_author. rewrite E.
  case_decide; [|done]. simpl. by rewrite lookup_insert_eq.
Qed.

(** The line on which the author appears in [book_metadata] is a line the
    author test was made on, and the author is the name it captured. *)
Lemma step_records_author st raw_line st' v :
  step st raw_line = Some st' →
  book_metadata st !! "authors" = None →
  book_metadata st' !! "authors" = Some v →
  ∃ name, v = [normalize_whitespace name] ∧
    ((HEADING_RE (rstrip raw_line) = None ∧
      BY_LINE_RE (strip (rstrip raw_line)) = Some name) ∨
     (∃ hashes group2, HEADING_RE (rstrip raw_line) = Some (hashes, group2) ∧
        BY_LINE_RE (strip group2) = Some name)).
Proof.
  intros Hstep%step_metadata Hnone Hv.
  destruct (HEADING_RE (rstrip raw_line)) as [[hashes group2]|]; case_decide.
  - destruct Hstep as [_ Em]. congruence.
  - rewrite Hstep in Hv.
    apply record_author_sets in Hv as (name & E & ->); [|done].
    exists name. split; [done|]. right. eauto.
  - congruence.
  - rewrite Hstep in Hv.
    apply record_author_sets in Hv as (name & E & ->); [|done].
    exists name. split; [done|]. by left.
Qed.

Lemma metadata_ok_authors m v :
  metadata_ok m → m !! "authors" = Some v → m = {["authors" := v]}.
Proof.
  intros [->|[author ->]]; [done|]. rewrite lookup_singleton_eq. by intros [= <-].
Qed.

(** ** The parser: list items *)

Lemma open_chapter_open st i :
  current_chapter st = Some i → open_chapter st = st.
Proof. destruct st. simpl. intros ->. done. Qed.

Lemma flush_paragraph_empty st :
  paragraph_lines st = [] → flush_paragraph st = Some st.
Proof.
  destruct st as [t m chs cur pl]. simpl. intros ->. unfold flush_paragraph. simpl.
  by destruct cur.
Qed.


(** Flushing a single pending line that gives the sentences [sents]. *)
Lemma flush_paragraph_single st i ch line sents :
  current_chapter st = Some i → chapters st !! i = Some ch →
  paragraph_lines st = [line] → strip line ≠ [] →
  number_sentences 1 (split_sentences (strip line)) = sents → sents ≠ [] →
  flush_paragraph st =
  Some (set_chapters
          (<[i := add_paragraphs ch
                    [{| paragraph_number := length (paragraphs ch) + 1;
                        sentences := sents |}]]> (chapters st))
          (set_paragraph_lines [] st)).
Proof.
  intros Hcur Hch Hlines Hne Hs Hsne. unfold flush_paragraph.
  rewrite Hcur, Hlines. rewrite filter_cons_True, filter_nil by done.
  change (join (py " ") (strip <$> [line])) with (strip line). rewrite Hs.
  case_decide; [done|]. case_decide; [done|].
  unfold append_paragraph. simpl. by rewrite Hch.
Qed.

Lemma step_list_item st i raw_line :
  HEADING_RE (rstrip raw_line) = None →
  strip (rstrip raw_line) ≠ [] →
  BY_LINE_RE (strip (rstrip raw_line)) = None →
  startswith (strip (rstrip raw_line)) (py "- ") = true →
  current_chapter st = Some i →
  step st raw_line =
  st0 ← flush_paragraph st;
  flush_paragraph (set_paragraph_lines [strip (rstrip raw_line)] st0).
Proof.
  intros Hh Hne Hby Hitem Hcur. unfold step. rewrite Hh.
  case_decide; [done|]. unfold record_author. rewrite Hby, Hitem.
  by rewrite (open_chapter_open st i).
Qed.

(** ** The parser returns *)

(** For every text the loop and the final flush go through, and the result
    is built from a well-formed state. *)
Lemma parse_markdown_returns text :
  ∃ st, run_lines (splitlines text) initial_state ≫= flush_paragraph = Some st ∧
        well_formed st ∧
        parse_markdown text = Some {| book := {|
          Book.title := default (py "Untitled") (book_title st);
          Book.chapters := chapters st;
          Book.metadata :=
            if decide (book_metadata st = ∅) then None else Some (book_metadata st);
        |} |}.
Proof.
  destruct (run_lines_well_formed (splitlines text) initial_state
              initial_state_well_formed) as (st1 & E1 & Hwf1).
  destruct (flush_paragraph_well_formed st1 Hwf1) as (st2 & E2 & Hwf2 & _).
  exists st2. unfold parse_markdown. rewrite E1. simpl. rewrite E2. done.
Qed.

Lemma chapters_numbered_increasing chs :
  chapters_numbered chs →
  increasing_from_1 (chapter_number <$> chs) ∧
  Forall (λ ch,
    increasing_from_1 (paragraph_number <$> paragraphs ch) ∧
    Forall (λ p, increasing_from_1 (sentence_number <$> sentences p))
           (paragraphs ch)) chs.
Proof.
  intros [Hnum Hall]. split; [by apply counts_from_1_increasing|].
  eapply Forall_impl; [done|]. intros ch [Hp Hs]. simpl.
  split; [by apply counts_from_1_increasing|].
  eapply Forall_impl; [done|]. intros p. apply counts_from_1_increasing.
Qed.

(** * The claims of the specification *)

(** C1, as the code has it.  For the text
    "# My Book", blank, "by Jane Doe", blank, "## Ch1", blank,
    "Hello world. This is a test.", [parse_markdown] returns the title
    "My Book" and the author "Jane Doe", and two chapters: the line
    "by Jane Doe" is also content, so it opens the fallback chapter, titled
    like the book, and is its one sentence; "Ch1" is chapter 2, with one
    paragraph of the two sentences "Hello world." and "This is a test.". *)
Theorem parse_markdown_example_book :
  parse_markdown example_book = Some {| book := {|
    Book.title := py "My Book";
    Book.chapters := [
      {| chapter_number := 1; chapter_title := py "My Book";
         paragraphs := [
           {| paragraph_number := 1;
              sentences := [
                {| sentence_number := 1; text := py "by Jane Doe"; notes := None |}] |}] |};
      {| chapter_number := 2; chapter_title := py "Ch1";
         paragraphs := [
           {| paragraph_number := 1;
              sentences := [
                {| sentence_number := 1; text := py "Hello world."; notes := None |};
                {| sentence_number := 2; text := py "This is a test."; notes := None |}] |}] |}];
    Book.metadata := Some {["authors" := [py "Jane Doe"]]};
  |} |}.
Proof. vm_compute. reflexivity. Qed.

(** C1 as stated fails: the document has two chapters, titled "My Book"
    and "Ch1", not the single chapter "Ch1". *)
Lemma parse_markdown_example_book_chapters :
  (λ doc, chapter_title <$> Book.chapters (book doc)) <$> parse_markdown example_book
  = Some [py "My Book"; py "Ch1"].
Proof. vm_compute. reflexivity. Qed.

(** C2, as the code has it.  For the text "Just a line." the title is the
    placeholder "Untitled" and the one chapter is the fallback chapter,
    whose title is the other fixed string, "Section 1"; it has one paragraph
    with the one sentence "Just a line.". *)
Theorem parse_markdown_example_line :
  parse_markdown example_line = Some {| book := {|
    Book.title := py "Untitled";
    Book.chapters := [
      {| chapter_number := 1; chapter_title := py "Section 1";
         paragraphs := [
           {| paragraph_number := 1;
              sentences := [
                {| sentence_number := 1; text := py "Just a line."; notes := None |}] |}] |}];
    Book.metadata := None;
  |} |}.
Proof. vm_compute. reflexivity. Qed.

(** C2 as stated fails: the title of the document and the title of the
    fallback chapter are different strings. *)
Lemma parse_markdown_example_line_titles :
  (λ doc, (Book.title (book doc), chapter_title <$> Book.chapters (book doc)))
    <$> parse_markdown example_line
  = Some (py "Untitled", [py "Section 1"])
  ∧ py "Untitled" ≠ py "Section 1".
Proof. split; [vm_compute; reflexivity|discriminate]. Qed.




(** C4.  For every text [parse_markdown] returns a document in which the
    chapter numbers increase strictly from 1, and so do the paragraph
    numbers of every chapter and the sentence numbers of every paragraph;
    at each level the numbers are in fact 1, 2, 3, ... without a gap
    ([chapters_numbered]). *)
Theorem parse_markdown_numbering (text : str) :
  ∃ doc, parse_markdown text = Some doc ∧
    increasing_from_1 (chapter_number <$> Book.chapters (book doc)) ∧
    Forall (λ ch,
      increasing_from_1 (paragraph_number <$> paragraphs ch) ∧
      Forall (λ p, increasing_from_1 (sentence_number <$> sentences p))
             (paragraphs ch))
      (Book.chapters (book doc)) ∧
    chapters_numbered (Book.chapters (book doc)).
Proof.
  destruct (parse_markdown_returns text) as (st & _ & (Hch & _) & ->).
  eexists. split; [done|]. simpl.
  destruct (chapters_numbered_increasing _ Hch). by split_and!.
Qed.

(** C5.  [parse_markdown] returns a document for every text: the reference
    it follows always points into [chapters], and each scan of a pattern
    ends within its fuel (more fuel gives the same scan).  For the empty
    text the document has the default title, no chapter, and no metadata. *)
Theorem parse_markdown_total (text : str) :
  (∃ doc, parse_markdown text = Some doc) ∧
  Forall (λ re, ∀ n s, length s ≤ n → scan_fuel n re s = scan re s)
    [WHITESPACE_RE; SENTENCE_PATTERN; FOOTNOTE_REF_RE; INLINE_FOOTNOTE_RE] ∧
  parse_markdown [] = Some {| book := {|
    Book.title := py "Untitled"; Book.chapters := []; Book.metadata := None |} |}.
Proof.
  split_and!.
  - destruct (parse_markdown_returns text) as (st & _ & _ & ->). eauto.
  - repeat constructor; intros n s; apply scan_fuel_enough.
    + apply WHITESPACE_RE_progressive.
    + apply SENTENCE_PATTERN_progressive.
    + apply FOOTNOTE_REF_RE_progressive.
    + apply INLINE_FOOTNOTE_RE_progressive.
  - reflexivity.
Qed.

(** C6.  The first line that records an author decides [metadata.authors]:
    if the lines before [raw_line] recorded no author and [raw_line] records
    [v], then [v] is the one name which the author pattern captured on that
    line (from the line itself or from its heading text), normalized; after
    any number of further lines [book_metadata] is still exactly
    [authors := v], whatever those lines are; and the document returned has
    this metadata. *)
Theorem first_author_wins text lines_before raw_line lines_after st st' v :
  splitlines text = lines_before ++ raw_line :: lines_after →
  run_lines lines_before initial_state = Some st →
  book_metadata st !! "authors" = None →
  step st raw_line = Some st' →
  book_metadata st' !! "authors" = Some v →
  (∃ name, v = [normalize_whitespace name] ∧
     ((HEADING_RE (rstrip raw_line) = None ∧
       BY_LINE_RE (strip (rstrip raw_line)) = Some name) ∨
      (∃ hashes group2, HEADING_RE (rstrip raw_line) = Some (hashes, group2) ∧
         BY_LINE_RE (strip group2) = Some name))) ∧
  (∀ further rest, lines_after = further ++ rest →
     ∃ st'', run_lines further st' = Some st'' ∧
             book_metadata st'' = {["authors" := v]}) ∧
  (∃ doc, parse_markdown text = Some doc ∧
          Book.metadata (book doc) = Some {["authors" := v]}).
Proof.
  intros Hsplit Hrun Hnone Hstep Hv.
  destruct (run_lines_well_formed lines_before initial_state
              initial_state_well_formed) as (st_ & E & Hwf).
  rewrite Hrun in E. injection E as <-.
  destruct (step_well_formed st raw_line Hwf) as (st'_ & E & Hwf').
  rewrite Hstep in E. injection E as <-.
  pose proof Hwf' as (_ & _ & Hmeta).
  pose proof (metadata_ok_authors _ _ Hmeta Hv) as Em.
  assert (∀ lines, ∃ st'', run_lines lines st' = Some st'' ∧ well_formed st'' ∧
                           book_metadata st'' = {["authors" := v]}) as Hlater.
  { intros lines.
    destruct (run_lines_well_formed lines st' Hwf') as (st'' & E & Hwf'').
    exists st''. split_and!; [done..|].
    rewrite <- Em. by eapply run_lines_keeps_author. }
  split_and!.
  - by eapply step_records_author.
  - intros further rest _. destruct (Hlater further) as (st'' & ? & _ & ?). eauto.
  - destruct (Hlater lines_after) as (st'' & Erun & Hwf'' & Em'').
    destruct (flush_paragraph_well_formed st'' Hwf'')
      as (st3 & Eflush & _ & _ & Em3 & _).
    unfold parse_markdown.
    rewrite Hsplit, run_lines_app, Hrun. simpl. rewrite Hstep. simpl.
    rewrite Erun. simpl. rewrite Eflush. simpl.
    eexists. split; [done|]. simpl. rewrite Em3, Em''.
    case_decide as E0; [|done].
    apply (f_equal (λ m, m !! "authors")) in E0.
    by rewrite lookup_singleton_eq in E0.
Qed.

Lemma first_author_wins_witness :
  (λ doc, Book.metadata (book doc))
    <$> parse_markdown (py "# T" ++ [LF] ++ py "by A" ++ [LF] ++ py "## By B" ++ [LF]
                        ++ py "by C" ++ [LF])
  = Some (Some {["authors" := [py "A"]]}).
Proof.
  destruct (first_author_wins
              (py "# T" ++ [LF] ++ py "by A" ++ [LF] ++ py "## By B" ++ [LF]
               ++ py "by C" ++ [LF])
              [py "# T"] (py "by A") [py "## By B"; py "by C"]
              {| book_title := Some (py "T"); book_metadata := ∅; chapters := [];
                 current_chapter := None; paragraph_lines := [] |}
              {| book_title := Some (py "T");
                 book_metadata := {["authors" := [py "A"]]};
                 chapters := [{| chapter_number := 1; chapter_title := py "T";
                                 paragraphs := [] |}];
                 current_chapter := Some 0; paragraph_lines := [py "by A"] |}
              [py "A"])
    as (_ & _ & doc & -> & Em).
  - vm_compute. reflexivity.
  - vm_compute. reflexivity.
  - vm_compute. reflexivity.
  - vm_compute. reflexivity.
  - vm_compute. reflexivity.
  - simpl. by rewrite Em.
Defined.



(** C8.  [split_sentences] returns the empty list for the empty paragraph;
    every sentence it returns is whitespace-normalized and not empty; and
    when the paragraph ends with a stretch [frag] that has no terminator and
    is not only whitespace, after nothing or after a terminator, the last
    sentence returned is that stretch, normalized. *)
Theorem split_sentences_spec (paragraph pre frag : str) :
  split_sentences [] = [] ∧
  Forall (λ s, normalized s ∧ s ≠ [] ∧ normalize_whitespace s = s)
         (split_sentences paragraph) ∧
  (ends_sentence pre → all_of not_terminator frag → ¬ all_of is_space frag →
   last (split_sentences (pre ++ frag)) = Some (normalize_whitespace frag)).
Proof.
  split_and!.
  - apply split_sentences_nil.
  - apply Forall_forall. intros s [Hn Hne]%split_sentences_elem.
    split_and!; [done..|]. by apply normalized_fixed.
  - apply split_sentences_final.
Qed.

Lemma split_sentences_spec_witness :
  last (split_sentences (py "  One.  Two!  and   a tail  ")) = Some (py "and a tail").
Proof.
  apply (split_sentences_spec [] (py "  One.  Two!") (py "  and   a tail  ")).
  - intros c [= <-]. reflexivity.
  - by apply (bool_decide_unpack _).
  - by apply (bool_decide_unpack _).
Defined.

(** C9.  Whitespace normalization is idempotent. *)
Theorem normalize_whitespace_idempotent (s : str) :
  normalize_whitespace (normalize_whitespace s) = normalize_whitespace s.
Proof. apply normalize_whitespace_idemp. Qed.

(** C10.  On the level-1 heading that becomes the title, the loop goes to
    the next line before the author test: whatever the heading text is,
    also an author line, the text becomes [book_title] and [book_metadata]
    stays as it was.  On every other heading and on every plain line the
    test is made: a text that matches records its author when none is
    recorded yet. *)
Theorem title_heading_records_no_author st raw_line st' :
  step st raw_line = Some st' →
  (∀ hashes group2,
     HEADING_RE (rstrip raw_line) = Some (hashes, group2) →
     book_title st = None → length hashes = 1 →
     book_title st' = Some (strip group2) ∧
     book_metadata st' = book_metadata st) ∧
  (∀ hashes group2 name,
     HEADING_RE (rstrip raw_line) = Some (hashes, group2) →
     ¬ (book_title st = None ∧ length hashes = 1) →
     BY_LINE_RE (strip group2) = Some name →
     book_metadata st !! "authors" = None →
     book_metadata st' !! "authors" = Some [normalize_whitespace name]) ∧
  (∀ name,
     HEADING_RE (rstrip raw_line) = None →
     BY_LINE_RE (strip (rstrip raw_line)) = Some name →
     book_metadata st !! "authors" = None →
     book_metadata st' !! "authors" = Some [normalize_whitespace name]).
Proof.
  intros Hstep%step_metadata. split_and!.
  - intros hashes group2 Hh Htitle Hlevel. rewrite Hh in Hstep.
    case_decide as Hc; [done|]. by destruct Hc.
  - intros hashes group2 name Hh Hother Hby Hnone. rewrite Hh in Hstep.
    case_decide; [done|]. rewrite Hstep. by apply record_author_new.
  - intros name Hh Hby Hnone. rewrite Hh in Hstep.
    case_decide as Hblank; [by rewrite Hblank in Hby|].
    rewrite Hstep. by apply record_author_new.
Qed.

Lemma title_heading_records_no_author_witness :
  BY_LINE_RE (py "by Jane Doe") = Some (py "Jane Doe") ∧
  book_title (set_current_chapter None
                (set_book_title (Some (py "by Jane Doe")) initial_state))
  = Some (py "by Jane Doe") ∧
  book_metadata (set_current_chapter None
                   (set_book_title (Some (py "by Jane Doe")) initial_state))
  = ∅.
Proof.
  split; [reflexivity|].
  destruct (title_heading_records_no_author initial_state (py "# by Jane Doe")
              (set_current_chapter None
                 (set_book_title (Some (py "by Jane Doe")) initial_state))
              eq_refl) as [Htitle _].
  apply (Htitle (py "#") (py "by Jane Doe")); reflexivity.
Defined.

(** * Further properties of the code *)

(** ** Whitespace normalization keeps the text *)

Lemma solid_cons_space c s : is_space c = true → solid (c :: s) = solid s.
Proof. intros Hc. unfold solid. rewrite filter_cons_False; [done|congruence]. Qed.

Lemma solid_cons_keep c s : is_space c = false → solid (c :: s) = c :: solid s.
Proof. intros Hc. unfold solid. by rewrite filter_cons_True. Qed.

Lemma solid_run w s : all_of is_space w → solid (w ++ s) = solid s.
Proof. induction 1 as [|c w Hc _ IH]; [done|]. simpl. by rewrite solid_cons_space. Qed.

Lemma solid_trailing s w : all_of is_space w → solid (s ++ w) = solid s.
Proof.
  intros Hw. unfold solid. rewrite filter_app.
  change (filter _ w) with (solid w).
  rewrite <- (app_nil_r w), solid_run by done. by rewrite app_nil_r.
Qed.

Lemma collapse_solid s : solid (collapse s) = solid s.
Proof.
  induction s as [|c t IH]; [done|]. destruct (is_space c) eqn:Hc.
  - rewrite (solid_cons_space c) by done. destruct t as [|d t].
    + rewrite collapse_last by done. by rewrite solid_cons_space.
    + destruct (is_space d) eqn:Hd.
      * by rewrite collapse_drop.
      * rewrite collapse_last by done. by rewrite solid_cons_space.
  - rewrite collapse_keep, !solid_cons_keep by done. by rewrite IH.
Qed.

Lemma lstrip_solid s : solid (lstrip s) = solid s.
Proof.
  destruct (lstrip_split s) as (w & E & Hw). rewrite E at 2.
  by rewrite solid_run.
Qed.

Lemma rstrip_solid s : solid (rstrip s) = solid s.
Proof.
  destruct (rstrip_split s) as (w & E & Hw). rewrite E at 2.
  by rewrite solid_trailing.
Qed.

Lemma normalize_whitespace_solid s : solid (normalize_whitespace s) = solid s.
Proof.
  rewrite normalize_whitespace_collapse. unfold strip.
  by rewrite rstrip_solid, lstrip_solid, collapse_solid.
Qed.

(** X1.  [normalize_whitespace] changes whitespace only: the characters
    that are not whitespace come out as they went in, in the same order;
    the result has single spaces as its only whitespace and nothing to
    strip; and it is empty exactly when the text is all whitespace. *)
Theorem normalize_whitespace_keeps_text (s : str) :
  solid (normalize_whitespace s) = solid s ∧
  normalized (normalize_whitespace s) ∧
  (normalize_whitespace s = [] ↔ all_of is_space s).
Proof.
  split_and!.
  - apply normalize_whitespace_solid.
  - apply normalize_whitespace_normalized.
  - split; [apply normalize_whitespace_nil_inv|apply normalize_whitespace_space].
Qed.

(** ** The shape of a sentence *)

Lemma scan_fuel_hit re n s g :
  Hit g ∈ scan_fuel n re s → ∃ s' rest, re s' = Some (g, rest).
Proof.
  revert s. induction n as [|n IH]; intros s; simpl; [by intros ?%elem_of_nil|].
  destruct s as [|c t]; [by intros ?%elem_of_nil|].
  destruct (re (c :: t)) as [[g' rest]|] eqn:E.
  - intros [[= <-]|H]%elem_of_cons; eauto.
  - intros [[=]|H]%elem_of_cons. eauto.
Qed.

(** Every string [findall] returns is a match of the pattern somewhere. *)
Lemma findall_elem re s g :
  g ∈ findall re s → ∃ s' rest, re s' = Some (g, rest).
Proof.
  unfold findall. intros (p & Hp & Hg)%list_elem_of_omap.
  destruct p as [c|g']; [done|]. injection Hg as ->.
  by eapply scan_fuel_hit.
Qed.

Lemma SENTENCE_PATTERN_inv s g rest :
  SENTENCE_PATTERN s = Some (g, rest) →
  ∃ body stop ws, g = body ++ stop ++ ws ∧
    all_of not_terminator body ∧
    (stop = [] ∨ ∃ t, stop = [t] ∧ is_terminator t = true) ∧
    all_of is_space ws.
Proof.
  intros (body & r1 & -> & Hne & Hbody & H)%re_plus_inv.
  apply re_opt_inv in H as (stop & r2 & -> & Hstop & Hlen & H).
  apply re_star_inv in H as (ws & r3 & -> & Hws & [= <- <-]).
  exists body, stop, ws. split_and!; [done..| |done].
  destruct stop as [|t [|??]]; [by left| |simpl in Hlen; lia].
  right. exists t. split; [done|]. by inversion Hstop.
Qed.

Lemma collapse_app x y :
  stops is_space y → collapse (x ++ y) = collapse x ++ collapse y.
Proof.
  intros Hy. induction x as [|c x IH]; [done|].
  destruct (is_space c) eqn:Hc.
  - destruct x as [|e x].
    + change ([c] ++ y) with (c :: y).
      rewrite (collapse_last c y), (collapse_last c []) by done. done.
    + destruct (is_space e) eqn:He.
      * change ((c :: e :: x) ++ y) with (c :: e :: (x ++ y)).
        rewrite !collapse_drop by done. apply IH.
      * change ((c :: e :: x) ++ y) with (c :: (e :: x) ++ y).
        rewrite (collapse_last c ((e :: x) ++ y)), (collapse_last c (e :: x)) by done.
        by rewrite IH.
  - change ((c :: x) ++ y) with (c :: (x ++ y)).
    rewrite (collapse_keep c (x ++ y)), (collapse_keep c x) by done.
    by rewrite IH.
Qed.

Lemma lstrip_app_stops a b :
  b ≠ [] → stops is_space b → lstrip (a ++ b) = lstrip a ++ b.
Proof.
  intros Hne Hb. induction a as [|c a IH]; simpl.
  - by apply lstrip_id.
  - by destruct (is_space c).
Qed.

Lemma all_of_collapse (p : char → bool) s :
  p SPACE = true → all_of p s → all_of p (collapse s).
Proof.
  intros Hsp. induction 1 as [|c t Hc Ht IH]; [constructor|].
  destruct (is_space c) eqn:Hws.
  - destruct t as [|d t].
    { rewrite collapse_last by done. by repeat constructor. }
    destruct (is_space d) eqn:Hd.
    + by rewrite collapse_drop.
    + rewrite collapse_last by done. by constructor.
  - rewrite collapse_keep by done. by constructor.
Qed.

Lemma all_of_normalize_whitespace (p : char → bool) s :
  p SPACE = true → all_of p s → all_of p (normalize_whitespace s).
Proof.
  intros Hsp Hs. rewrite normalize_whitespace_collapse.
  by apply all_of_rstrip, all_of_lstrip, all_of_collapse.
Qed.

(** A character that is not whitespace, at the end, stays at the end. *)
Lemma normalize_whitespace_snoc s t :
  is_space t = false →
  normalize_whitespace (s ++ [t]) = lstrip (collapse s) ++ [t].
Proof.
  intros Ht. rewrite normalize_whitespace_collapse. unfold strip.
  rewrite collapse_app by done. rewrite collapse_keep by done. simpl collapse.
  rewrite lstrip_app_stops by done.
  assert (rstrip [t] = [t]) as Et by (simpl; by rewrite Ht).
  rewrite rstrip_app; rewrite Et; done.
Qed.

Lemma SENTENCE_PATTERN_one_sentence s g rest :
  SENTENCE_PATTERN s = Some (g, rest) → one_sentence (normalize_whitespace g).
Proof.
  intros (body & stop & ws & -> & Hbody & Hstop & Hws)%SENTENCE_PATTERN_inv.
  rewrite app_assoc, normalize_whitespace_trailing by done.
  destruct Hstop as [->|(t & -> & Ht)].
  - rewrite app_nil_r. exists (normalize_whitespace body), [].
    rewrite app_nil_r. split_and!; [done| |by left].
    by apply all_of_normalize_whitespace.
  - rewrite normalize_whitespace_snoc by by apply terminator_not_space.
    eexists _, [t]. split_and!; [done| |by eauto].
    by apply all_of_lstrip, all_of_collapse.
Qed.

(** X2.  Every sentence [split_sentences] returns has at most one
    terminator, and then as its last character: no sentence runs across a
    full stop, an exclamation mark or a question mark. *)
Theorem split_sentences_one_sentence (paragraph : str) :
  Forall one_sentence (split_sentences paragraph).
Proof.
  apply Forall_forall. intros s. unfold split_sentences. case_decide.
  - by intros ?%elem_of_nil.
  - intros [_ (g & -> & Hg)%list_elem_of_fmap]%list_elem_of_filter.
    apply findall_elem in Hg as (s' & rest & Hg).
    by eapply SENTENCE_PATTERN_one_sentence.
Qed.

(** ** The note extractor: what it keeps and what it records *)

(** A replacer deletes the matches and appends their stripped groups. *)
Lemma sub_pieces_replacer ps notes :
  sub_pieces footnote_replacer ps notes =
  (unmatched ps,
   notes ++ (strip <$> omap (λ p, match p with Hit g => Some g | Lit _ => None end) ps)).
Proof.
  revert notes. induction ps as [|[c|g] ps IH]; intros notes; csimpl.
  - by rewrite app_nil_r.
  - by rewrite IH.
  - rewrite IH. by rewrite <- app_assoc.
Qed.

Lemma sub_fn_replacer re s notes :
  sub_fn re footnote_replacer s notes =
  (unmatched (scan re s), notes ++ (strip <$> findall re s)).
Proof. apply sub_pieces_replacer. Qed.

Lemma extract_notes_unfold sentence :
  extract_notes sentence =
  (normalize_whitespace
     (unmatched (scan INLINE_FOOTNOTE_RE (unmatched (scan FOOTNOTE_REF_RE sentence)))),
   (strip <$> findall FOOTNOTE_REF_RE sentence) ++
   (strip <$> findall INLINE_FOOTNOTE_RE (unmatched (scan FOOTNOTE_REF_RE sentence)))).
Proof.
  unfold extract_notes. change inline_footnote_replacer with footnote_replacer.
  by rewrite !sub_fn_replacer.
Qed.

Lemma unmatched_sublist re n s :
  (∀ s g rest, re s = Some (g, rest) → rest `suffix_of` s) →
  unmatched (scan_fuel n re s) `sublist_of` s.
Proof.
  intros Hre. revert s. induction n as [|n IH]; intros s; simpl.
  { apply sublist_nil_l. }
  destruct s as [|c t]; [done|].
  destruct (re (c :: t)) as [[g rest]|] eqn:E; csimpl.
  - destruct (Hre _ _ _ E) as [k ->]. apply sublist_inserts_l, IH.
  - apply sublist_skip, IH.
Qed.

Lemma FOOTNOTE_REF_RE_suffix s g rest :
  FOOTNOTE_REF_RE s = Some (g, rest) → rest `suffix_of` s.
Proof.
  intros (t1 & -> & H)%re_char_inv.
  apply re_char_inv in H as (t2 & -> & H).
  apply re_plus_inv in H as (ident & r1 & -> & _ & _ & H).
  apply re_char_inv in H as (r2 & -> & [= <- <-]).
  exists (LBRACKET :: CARET :: ident ++ [RBRACKET]).
  simpl. by rewrite <- app_assoc.
Qed.

Lemma INLINE_FOOTNOTE_RE_suffix s g rest :
  INLINE_FOOTNOTE_RE s = Some (g, rest) → rest `suffix_of` s.
Proof.
  intros (t1 & -> & H)%re_char_inv.
  apply re_word_ci_inv in H as (word & r1 & -> & _ & H).
  apply re_plus_inv in H as (ident & r2 & -> & _ & _ & H).
  apply re_char_inv in H as (r3 & -> & [= <- <-]).
  exists (LBRACKET :: word ++ ident ++ [RBRACKET]).
  simpl. by rewrite <- !app_assoc.
Qed.

(** X3.  What [extract_notes] returns for any sentence.  The notes are the
    stripped captures of all references first, then those of the inline
    footnotes found in what is left, whatever the order of the markers in
    the sentence.  The text is whitespace-normalized, and it only loses
    characters: what is not whitespace in it stands in the sentence, in the
    same order.  Every note is stripped. *)
Theorem extract_notes_shape (sentence : str) :
  let without_refs := unmatched (scan FOOTNOTE_REF_RE sentence) in
  (extract_notes sentence).2 =
    (strip <$> findall FOOTNOTE_REF_RE sentence) ++
    (strip <$> findall INLINE_FOOTNOTE_RE without_refs) ∧
  normalized (extract_notes sentence).1 ∧
  solid (extract_notes sentence).1 `sublist_of` sentence ∧
  Forall (λ note, strip note = note) (extract_notes sentence).2.
Proof.
  rewrite extract_notes_unfold. simpl. split_and!.
  - done.
  - apply normalize_whitespace_normalized.
  - rewrite normalize_whitespace_solid.
    etrans; [apply sublist_filter|].
    etrans; [apply unmatched_sublist, INLINE_FOOTNOTE_RE_suffix|].
    apply unmatched_sublist, FOOTNOTE_REF_RE_suffix.
  - apply Forall_app. split; apply Forall_fmap, Forall_forall; intros g _;
      apply strip_idemp.
Qed.

Lemma scan_no_bracket (k : str → option (str * str)) (s : str) :
  LBRACKET ∉ s → scan (re_char LBRACKET k) s = Lit <$> s.
Proof.
  intros Hs. rewrite <- (app_nil_r s) at 1.
  rewrite scan_skip by by apply re_char_bracket_skip. by rewrite app_nil_r.
Qed.

Lemma unmatched_lits (s : str) : unmatched (Lit <$> s) = s.
Proof. induction s as [|c s IH]; csimpl; [done|]. by rewrite IH. Qed.

Lemma findall_lits re (s : str) : scan re s = Lit <$> s → findall re s = [].
Proof.
  unfold findall. intros ->. induction s as [|c s IH]; csimpl; [done|]. exact IH.
Qed.

(** X4.  A sentence without an opening bracket has no notes, and its text
    is the sentence, whitespace-normalized; its entry in the result then
    has no [notes] key. *)
Theorem extract_notes_no_bracket (sentence : str) (number : nat) :
  LBRACKET ∉ sentence →
  extract_notes sentence = (normalize_whitespace sentence, []) ∧
  number_sentences number [sentence] =
    [{| sentence_number := number; text := normalize_whitespace sentence;
        notes := None |}].
Proof.
  intros Hs.
  assert (extract_notes sentence = (normalize_whitespace sentence, [])) as E.
  { rewrite extract_notes_unfold.
    assert (scan FOOTNOTE_REF_RE sentence = Lit <$> sentence) as E1
      by by apply scan_no_bracket.
    rewrite (findall_lits _ _ E1), E1, unmatched_lits.
    assert (scan INLINE_FOOTNOTE_RE sentence = Lit <$> sentence) as E2
      by by apply scan_no_bracket.
    by rewrite (findall_lits _ _ E2), E2, unmatched_lits. }
  split; [done|]. simpl. by rewrite E.
Qed.

Lemma extract_notes_no_bracket_witness :
  number_sentences 3 [py "  Plain   text, no  marker. "] =
  [{| sentence_number := 3; text := py "Plain text, no marker."; notes := None |}].
Proof.
  apply (extract_notes_no_bracket (py "  Plain   text, no  marker. ") 3).
  by apply (bool_decide_unpack _).
Defined.

Lemma FOOTNOTE_REF_RE_marker ident rest :
  ident ≠ [] → RBRACKET ∉ ident →
  FOOTNOTE_REF_RE (LBRACKET :: CARET :: ident ++ RBRACKET :: rest) = Some (ident, rest).
Proof.
  intros Hne Hi. unfold FOOTNOTE_REF_RE. rewrite !re_char_eq.
  apply re_plus_longest; [by apply not_rbracket_all|done|done|].
  by rewrite re_char_eq.
Qed.

(** X5.  A reference "[^ident]" that no opening bracket precedes: its
    identifier, stripped, is the first note, the marker is gone from the
    text, and the rest of the sentence is treated as if it stood alone. *)
Theorem extract_notes_footnote_reference pre ident post :
  LBRACKET ∉ pre → ident ≠ [] → RBRACKET ∉ ident →
  extract_notes (pre ++ LBRACKET :: CARET :: ident ++ RBRACKET :: post) =
  let '(cleaned1, notes1) := sub_fn FOOTNOTE_REF_RE footnote_replacer post [] in
  let '(cleaned2, notes2) := sub_fn INLINE_FOOTNOTE_RE inline_footnote_replacer cleaned1 [] in
  (normalize_whitespace (pre ++ cleaned2), strip ident :: notes1 ++ notes2).
Proof.
  intros Hpre Hne Hr. unfold extract_notes, sub_fn.
  rewrite scan_skip by by apply re_char_bracket_skip.
  rewrite (scan_hit _ FOOTNOTE_REF_RE_progressive _ _ _
             (FOOTNOTE_REF_RE_marker _ post Hne Hr)).
  rewrite sub_pieces_app, sub_pieces_lits. simpl.
  rewrite sub_pieces_notes.
  destruct (sub_pieces footnote_replacer (scan FOOTNOTE_REF_RE post) [])
    as [cleaned1 notes1]. simpl.
  rewrite scan_skip by by apply re_char_bracket_skip.
  rewrite sub_pieces_app, sub_pieces_lits.
  change inline_footnote_replacer with footnote_replacer.
  rewrite sub_pieces_notes.
  by destruct (sub_pieces footnote_replacer (scan INLINE_FOOTNOTE_RE cleaned1) []).
Qed.

Lemma extract_notes_footnote_reference_witness :
  extract_notes (py "See this[^ 1 ] and[footnote:b] that[^2].") =
  (py "See this and that.", [py "1"; py "2"; py "footnote:b"]).
Proof.
  apply (extract_notes_footnote_reference
           (py "See this") (py " 1 ") (py " and[footnote:b] that[^2].")).
  - by apply (bool_decide_unpack _).
  - discriminate.
  - by apply (bool_decide_unpack _).
Defined.

(** ** The parser: the shape of what it builds *)

Lemma rstrip_trailing a w : all_of is_space w → rstrip (a ++ w) = rstrip a.
Proof.
  intros Hw. induction a as [|c a IH]; simpl.
  - by apply rstrip_nil_iff.
  - by rewrite IH.
Qed.

(** A text that [rstrip] leaves alone does not end with whitespace. *)
Lemma rstrip_no_trailing s a w :
  rstrip s = s → s = a ++ w → all_of is_space w → w = [].
Proof.
  intros Hs -> Hw. rewrite rstrip_trailing in Hs by done.
  destruct (rstrip_split a) as (w' & E & _).
  apply (f_equal length) in Hs, E. rewrite !length_app in *.
  destruct w; [done|]. simpl in *. lia.
Qed.

Lemma strip_nil_inv s : strip s = [] → all_of is_space s.
Proof.
  unfold strip. intros H%rstrip_nil_iff.
  destruct (lstrip_split s) as (w & E & Hw). rewrite E. by apply Forall_app.
Qed.

Lemma rstrip_strip s : rstrip (strip s) = strip s.
Proof. apply rstrip_idemp. Qed.

Lemma re_eol_inv {R} (k : option R) s y :
  re_eol k s = Some y → k = Some y ∧ all_of is_space s.
Proof.
  destruct s as [|c [|??]]; simpl; [by split; [|constructor]| |done].
  destruct (N.eqb_spec c LF) as [->|]; [|done].
  split; [done|]. by repeat constructor.
Qed.

(** The text of a heading is never empty: the line was stripped on its
    right before the pattern was tried. *)
Lemma HEADING_RE_text raw_line hashes group2 :
  HEADING_RE (rstrip raw_line) = Some (hashes, group2) → title_ok (strip group2).
Proof.
  intros H. split; [|apply strip_idemp]. intros Hnil%strip_nil_inv.
  apply re_plus_inv in H as (h & r1 & E1 & _ & _ & H).
  apply re_plus_inv in H as (ws & r2 & -> & Hne & Hws & H).
  apply re_star_inv in H as (txt & r3 & -> & _ & H).
  apply re_eol_inv in H as [[= <- <-] Hr3].
  assert (ws ++ txt ++ r3 = []) as E0.
  { eapply (rstrip_no_trailing _ h); [apply rstrip_idemp|done|].
    by repeat (apply Forall_app; split). }
  by apply app_eq_nil in E0 as [-> _].
Qed.

(** The name on an author line is never blank, for the same reason. *)
Lemma BY_LINE_RE_name candidate name :
  BY_LINE_RE (strip candidate) = Some name → normalize_whitespace name ≠ [].
Proof.
  intros H Hnil%normalize_whitespace_nil_inv.
  apply re_word_ci_inv in H as (m & r1 & E1 & _ & H).
  apply re_plus_inv in H as (ws & r2 & -> & _ & _ & H).
  apply re_plus_inv in H as (name' & r3 & -> & Hne & _ & H).
  apply re_eol_inv in H as [[= <-] Hr3].
  assert (name' ++ r3 = []) as E0.
  { eapply (rstrip_no_trailing _ (m ++ ws)); [apply rstrip_strip| |].
    - by rewrite E1, <- app_assoc.
    - by apply Forall_app. }
  by apply app_eq_nil in E0 as [-> _].
Qed.

Lemma extract_notes_ok sentence :
  normalized (extract_notes sentence).1 ∧
  Forall (λ note, strip note = note) (extract_notes sentence).2.
Proof.
  rewrite extract_notes_unfold. simpl. split.
  - apply normalize_whitespace_normalized.
  - apply Forall_app. split; apply Forall_fmap, Forall_forall; intros g _;
      apply strip_idemp.
Qed.

Lemma number_sentences_ok number sentences_raw :
  Forall sentence_ok (number_sentences number sentences_raw).
Proof.
  revert number. induction sentences_raw as [|x l IH]; intros number; simpl.
  { constructor. }
  pose proof (extract_notes_ok x) as [Hc Hn].
  destruct (extract_notes x) as [cleaned ns]. constructor; [|apply IH].
  split; [done|]. simpl. by case_decide.
Qed.

Lemma flush_paragraph_ok st st' :
  flush_paragraph st = Some st' → state_ok st → state_ok st'.
Proof.
  unfold flush_paragraph. intros Hflush (Hch & Ht & Hm & Hcur).
  destruct (current_chapter st) as [i|] eqn:Ecur.
  2:{ injection Hflush as <-. split_and!; try done. simpl. by rewrite Ecur. }
  assert (state_ok (set_paragraph_lines [] st)) as Hsame.
  { split_and!; try done. simpl. by rewrite Ecur. }
  case_decide; [by injection Hflush as <-|].
  case_decide as Hsents; [by injection Hflush as <-|].
  unfold append_paragraph in Hflush. simpl in Hflush.
  destruct (chapters st !! i) as [ch|] eqn:Ei; [|done]. simpl in Hflush.
  injection Hflush as <-. split_and!; simpl; try done.
  - apply Forall_insert; [done|].
    pose proof (Forall_lookup_1 _ _ _ _ Hch Ei) as [Htitle Hps].
    split; [done|]. simpl. apply Forall_app. split; [done|].
    repeat constructor; [done|]. apply number_sentences_ok.
  - intros j. rewrite Ecur, length_insert. by apply Hcur.
Qed.

Lemma record_author_ok candidate st :
  state_ok st → state_ok (record_author (strip candidate) st).
Proof.
  intros (Hch & Ht & Hm & Hcur). unfold record_author.
  destruct (BY_LINE_RE (strip candidate)) as [name|] eqn:E; [|done].
  case_decide as Hnone; [|done]. split_and!; try done. simpl.
  destruct Hm as [->|(author & Em & _)].
  - right. exists (normalize_whitespace name). rewrite insert_empty.
    split_and!; [done|by eapply BY_LINE_RE_name|apply normalize_whitespace_normalized].
  - rewrite Em, lookup_singleton_eq in Hnone. done.
Qed.

Lemma fallback_title_ok st :
  (∀ t, book_title st = Some t → title_ok t) → title_ok (fallback_title st).
Proof.
  intros Ht. unfold fallback_title.
  destruct (book_title st) as [t|]; [|by split].
  case_decide; [by split|]. by apply Ht.
Qed.

Lemma open_chapter_ok st : state_ok st → state_ok (open_chapter st).
Proof.
  intros (Hch & Ht & Hm & Hcur). unfold open_chapter, ensure_chapter.
  destruct (current_chapter st) as [i|] eqn:Ecur; simpl.
  - by split_and!.
  - split_and!; try done; simpl.
    + apply Forall_app. split; [done|]. constructor; [|constructor].
      split; simpl; [by apply fallback_title_ok|constructor].
    + intros j [= <-]. rewrite length_app. simpl. lia.
Qed.

Lemma step_ok st raw_line st' :
  step st raw_line = Some st' → state_ok st → state_ok st'.
Proof.
  unfold step. intros Hstep Hok.
  destruct (HEADING_RE (rstrip raw_line)) as [[hashes group2]|] eqn:Eh.
  - destruct (flush_paragraph st) as [st1|] eqn:E1; [|done].
    apply flush_paragraph_ok in E1; [|done]. simpl in Hstep.
    pose proof (HEADING_RE_text _ _ _ Eh) as Htext.
    case_decide; injection Hstep as <-.
    + destruct E1 as (Hch & Ht & Hm & Hcur). split_and!; try done; simpl.
      by intros t [= <-].
    + pose proof (record_author_ok group2 st1 E1) as (Hch & Ht & Hm & Hcur).
      split_and!; try done; simpl.
      * apply Forall_app. split; [done|]. constructor; [|constructor].
        split; [done|]. simpl. constructor.
      * intros j [= <-]. rewrite length_app. simpl. lia.
  - case_decide; [by eapply flush_paragraph_ok|].
    pose proof (open_chapter_ok _ (record_author_ok (rstrip raw_line) st Hok)) as Hok2.
    destruct (startswith _ _).
    + destruct (flush_paragraph _) as [st3|] eqn:E3; [|done].
      apply flush_paragraph_ok in E3; [|done]. simpl in Hstep.
      by apply flush_paragraph_ok in Hstep.
    + by injection Hstep as <-.
Qed.

Lemma run_lines_ok lines st st' :
  run_lines lines st = Some st' → state_ok st → state_ok st'.
Proof.
  revert st. induction lines as [|raw_line rest IH]; intros st; simpl.
  - by intros [= <-].
  - destruct (step st raw_line) as [st1|] eqn:E1; [|done]. simpl.
    intros Hrun Hok. eapply IH; [done|]. by eapply step_ok.
Qed.

Lemma initial_state_ok : state_ok initial_state.
Proof. split_and!; [constructor|done|by left|done]. Qed.

(** The document is built from a state that satisfies both invariants. *)
Lemma parse_markdown_state text :
  ∃ st, state_ok st ∧ well_formed st ∧
        parse_markdown text = Some {| book := {|
          Book.title := default (py "Untitled") (book_title st);
          Book.chapters := chapters st;
          Book.metadata :=
            if decide (book_metadata st = ∅) then None else Some (book_metadata st);
        |} |}.
Proof.
  destruct (parse_markdown_returns text) as (st & Hrun & Hwf & E).
  exists st. split_and!; [|done..].
  destruct (run_lines (splitlines text) initial_state) as [st1|] eqn:E1; [|done].
  simpl in Hrun. eapply flush_paragraph_ok; [done|].
  eapply run_lines_ok; [done|]. apply initial_state_ok.
Qed.

(** X6.  Every paragraph of the document has at least one sentence; the
    text of every sentence is whitespace-normalized; and a sentence that
    has notes has at least one, each of them stripped. *)
Theorem parse_markdown_paragraphs (text : str) :
  ∃ doc, parse_markdown text = Some doc ∧
    Forall (λ ch, Forall paragraph_ok (paragraphs ch)) (Book.chapters (book doc)).
Proof.
  destruct (parse_markdown_state text) as (st & (Hch & _) & _ & ->).
  eexists. split; [done|]. simpl.
  eapply Forall_impl; [done|]. by intros ch [_ ?].
Qed.

(** X7.  The title of the document and the title of every chapter are
    never empty and have no whitespace at either end: a heading has text,
    and the defaults are "Untitled" and "Section 1". *)
Theorem parse_markdown_titles (text : str) :
  ∃ doc, parse_markdown text = Some doc ∧
    title_ok (Book.title (book doc)) ∧
    Forall (λ ch, title_ok (chapter_title ch)) (Book.chapters (book doc)).
Proof.
  destruct (parse_markdown_state text) as (st & (Hch & Ht & _) & _ & ->).
  eexists. split; [done|]. simpl. split.
  - destruct (book_title st) as [t|]; [by apply Ht|by split].
  - eapply Forall_impl; [done|]. by intros ch [? _].
Qed.

(** X8.  The metadata of the document, when it is there, has the one key
    [authors] with one name, which is not empty and is
    whitespace-normalized. *)
Theorem parse_markdown_metadata (text : str) :
  ∃ doc, parse_markdown text = Some doc ∧
    (Book.metadata (book doc) = None ∨
     ∃ author, Book.metadata (book doc) = Some {["authors" := [author]]} ∧
               author ≠ [] ∧ normalized author).
Proof.
  destruct (parse_markdown_state text) as (st & (_ & _ & Hm & _) & _ & ->).
  eexists. split; [done|]. simpl.
  destruct Hm as [->|(author & -> & Hne & Hn)].
  - left. by case_decide.
  - right. exists author. split; [|done]. case_decide as E0; [|done].
    apply (f_equal (λ m, m !! "authors")) in E0.
    by rewrite lookup_singleton_eq in E0.
Qed.

(** ** The parser: the title *)

Lemma record_author_title candidate st :
  book_title (record_author candidate st) = book_title st.
Proof.
  unfold record_author. destruct (BY_LINE_RE candidate); [|done]. by case_decide.
Qed.

Lemma open_chapter_title st : book_title (open_chapter st) = book_title st.
Proof. unfold open_chapter, ensure_chapter. by destruct (current_chapter st). Qed.

Lemma step_title st raw_line st' :
  step st raw_line = Some st' →
  book_title st' =
  match book_title st with
  | Some t => Some t
  | None => level1_heading raw_line
  end.
Proof.
  unfold step, level1_heading. intros Hstep.
  destruct (HEADING_RE (rstrip raw_line)) as [[hashes group2]|].
  - destruct (flush_paragraph st) as [st1|] eqn:E1; [|done].
    apply flush_paragraph_keeps in E1 as [_ Et]. simpl in Hstep.
    rewrite Et in Hstep. case_decide as Hc; injection Hstep as <-; simpl.
    + destruct Hc as [-> ?]. by case_decide.
    + rewrite record_author_title, Et. destruct (book_title st); [done|].
      case_decide; [|done]. destruct Hc. by split.
  - assert (book_title st' = book_title st) as ->;
      [|by destruct (book_title st)].
    case_decide; [by apply flush_paragraph_keeps in Hstep as [_ ?]|].
    destruct (startswith _ _).
    + destruct (flush_paragraph _) as [st3|] eqn:E3; [|done].
      apply flush_paragraph_keeps in E3 as [_ E3]. simpl in Hstep.
      apply flush_paragraph_keeps in Hstep as [_ E4]. simpl in E4.
      by rewrite E4, E3, open_chapter_title, record_author_title.
    + injection Hstep as <-. simpl.
      by rewrite open_chapter_title, record_author_title.
Qed.

Lemma run_lines_title lines st st' :
  run_lines lines st = Some st' →
  book_title st' =
  match book_title st with
  | Some t => Some t
  | None => head (omap level1_heading lines)
  end.
Proof.
  revert st. induction lines as [|raw_line rest IH]; intros st; simpl.
  - intros [= <-]. by destruct (book_title st).
  - destruct (step st raw_line) as [st1|] eqn:E1; [|done]. simpl.
    intros Hrun%IH. rewrite Hrun, (step_title _ _ _ E1).
    destruct (book_title st); [done|]. by destruct (level1_heading raw_line).
Qed.

(** X9.  The title of the document is the text of the first line that is a
    level-1 heading, and "Untitled" when the text has none: later level-1
    headings never change it. *)
Theorem parse_markdown_title (text : str) :
  ∃ doc, parse_markdown text = Some doc ∧
    Book.title (book doc) =
    default (py "Untitled") (head (omap level1_heading (splitlines text))).
Proof.
  destruct (parse_markdown_returns text) as (st & Hrun & _ & ->).
  eexists. split; [done|]. simpl.
  destruct (run_lines (splitlines text) initial_state) as [st1|] eqn:E1; [|done].
  simpl in Hrun. apply flush_paragraph_keeps in Hrun as [_ ->].
  by rewrite (run_lines_title _ _ _ E1).
Qed.

(** ** The parser: blank lines *)

Lemma step_blank st raw_line :
  all_of is_space raw_line → step st raw_line = flush_paragraph st.
Proof.
  intros Hb. unfold step. apply rstrip_nil_iff in Hb. rewrite Hb.
  change (HEADING_RE []) with (@None (str * str)).
  change (strip []) with (@nil char). by case_decide.
Qed.

Lemma flush_paragraph_lines st st' :
  flush_paragraph st = Some st' → paragraph_lines st' = [].
Proof.
  unfold flush_paragraph. destruct (current_chapter st); [|by intros [= <-]].
  case_decide; [by intros [= <-]|]. case_decide; [by intros [= <-]|].
  destruct (append_paragraph _ _ _); simpl; [|done]. by intros [= <-].
Qed.

(** X10.  Blank lines in a row count as one: after a blank line, any number
    of further blank lines leave the state as it is. *)
Theorem blank_lines_collapse st raw_line (more : list str) :
  all_of is_space raw_line → Forall (all_of is_space) more →
  run_lines (raw_line :: more) st = step st raw_line.
Proof.
  intros Hb Hmore. simpl. destruct (step st raw_line) as [st1|] eqn:E1; [|done].
  simpl. rewrite step_blank in E1 by done. apply flush_paragraph_lines in E1.
  induction Hmore as [|l more Hl _ IH]; [done|]. simpl.
  rewrite step_blank by done. rewrite flush_paragraph_empty by done. apply IH.
Qed.

Lemma blank_lines_collapse_witness :
  run_lines [py "  "; []; [9%N]; py " "]
    {| book_title := None; book_metadata := ∅;
       chapters := [{| chapter_number := 1; chapter_title := py "Section 1";
                       paragraphs := [] |}];
       current_chapter := Some 0; paragraph_lines := [py "Some text."] |}
  = Some
    {| book_title := None; book_metadata := ∅;
       chapters := [{| chapter_number := 1; chapter_title := py "Section 1";
                       paragraphs := [item_paragraph 1 (py "Some text.")] |}];
       current_chapter := Some 0; paragraph_lines := [] |}.
Proof.
  rewrite (blank_lines_collapse _ (py "  ") [[]; [9%N]; py " "]).
  - reflexivity.
  - by apply (bool_decide_unpack _).
  - by apply (bool_decide_unpack _).
Defined.

Lemma splitlines_from_all (p : char → bool) after_cr cur s :
  all_of p cur → all_of p s → Forall (all_of p) (splitlines_from after_cr cur s).
Proof.
  intros Hcur Hs. revert after_cr cur Hcur.
  induction Hs as [|c t Hc Ht IH]; intros after_cr cur Hcur; simpl.
  - destruct cur; [constructor|]. constructor; [done|constructor].
  - destruct (after_cr && (c =? LF)%N); [by apply IH|].
    destruct (is_linebreak c).
    + constructor; [done|]. apply IH. constructor.
    + apply IH. apply Forall_app. split; [done|]. by repeat constructor.
Qed.

Lemma run_lines_blank lines st :
  Forall (all_of is_space) lines → paragraph_lines st = [] →
  run_lines lines st = Some st.
Proof.
  intros Hl Hp. induction Hl as [|l lines Hb _ IH]; [done|]. simpl.
  rewrite step_blank by done. rewrite flush_paragraph_empty by done. apply IH.
Qed.

(** X11.  A text of nothing but whitespace, of whatever kind and on however
    many lines, gives the same document as the empty text: the default
    title, no chapter and no metadata. *)
Theorem parse_markdown_blank (text : str) :
  all_of is_space text →
  parse_markdown text = Some {| book := {|
    Book.title := py "Untitled"; Book.chapters := []; Book.metadata := None |} |}.
Proof.
  intros Hb. unfold parse_markdown.
  rewrite run_lines_blank; [done| |done].
  apply splitlines_from_all; [constructor|done].
Qed.

Lemma parse_markdown_blank_witness :
  parse_markdown (py "   " ++ [LF; 9%N; CR; LF; 0xA0%N; 0x2028%N] ++ py " ") =
  Some {| book := {|
    Book.title := py "Untitled"; Book.chapters := []; Book.metadata := None |} |}.
Proof.
  apply (parse_markdown_blank (py "   " ++ [LF; 9%N; CR; LF; 0xA0%N; 0x2028%N] ++ py " ")).
  by apply (bool_decide_unpack _).
Defined.

(** ** The parser: chapters only grow *)

Lemma chapter_grows_refl ch : chapter_grows ch ch.
Proof. by split_and!. Qed.

Lemma chapters_extend_refl chs : chapters_extend chs chs.
Proof. intros i ch Hi. exists ch. split_and!; [done|apply chapter_grows_refl|done]. Qed.

Lemma chapters_extend_length chs chs' :
  chapters_extend chs chs' → length chs ≤ length chs'.
Proof.
  intros H. destruct (decide (length chs = 0)) as [->|Hne]; [lia|].
  destruct (lookup_lt_is_Some_2 chs (pred (length chs))) as [ch Hch]; [lia|].
  destruct (H _ _ Hch) as (ch' & Hch'%lookup_lt_Some & _). lia.
Qed.

Lemma chapters_extend_trans chs1 chs2 chs3 :
  chapters_extend chs1 chs2 → chapters_extend chs2 chs3 → chapters_extend chs1 chs3.
Proof.
  intros H12 H23 i ch Hi.
  destruct (H12 _ _ Hi) as (ch2 & Hi2 & (Hn2 & Ht2 & Hp2) & Hsame2).
  destruct (H23 _ _ Hi2) as (ch3 & Hi3 & (Hn3 & Ht3 & Hp3) & Hsame3).
  exists ch3. split_and!; [done| |].
  - split_and!; [congruence..|by etrans].
  - intros Hlt. rewrite Hsame3, Hsame2; [done..|].
    apply chapters_extend_length in H12. lia.
Qed.

Lemma chapters_extend_app chs new : chapters_extend chs (chs ++ new).
Proof.
  intros i ch Hi. exists ch. split_and!; [|apply chapter_grows_refl|done].
  by apply lookup_app_l_Some.
Qed.

Lemma chapters_extend_insert chs i ch ch' :
  S i = length chs → chs !! i = Some ch → chapter_grows ch ch' →
  chapters_extend chs (<[i := ch']> chs).
Proof.
  intros Hlast Hi Hg j chj Hj. destruct (decide (j = i)) as [->|Hne].
  - exists ch'. rewrite list_lookup_insert_eq by lia.
    split_and!; [done|congruence|lia].
  - exists chj. rewrite list_lookup_insert_ne by done.
    split_and!; [done|apply chapter_grows_refl|done].
Qed.

Lemma flush_paragraph_extend st st' :
  flush_paragraph st = Some st' → state_ok st →
  chapters_extend (chapters st) (chapters st').
Proof.
  unfold flush_paragraph. intros Hflush (_ & _ & _ & Hcur).
  destruct (current_chapter st) as [i|] eqn:Ecur.
  2:{ injection Hflush as <-. apply chapters_extend_refl. }
  case_decide; [injection Hflush as <-; apply chapters_extend_refl|].
  case_decide; [injection Hflush as <-; apply chapters_extend_refl|].
  unfold append_paragraph in Hflush. simpl in Hflush.
  destruct (chapters st !! i) as [ch|] eqn:Ei; [|done]. simpl in Hflush.
  injection Hflush as <-. simpl.
  eapply chapters_extend_insert; [by apply Hcur|done|].
  split_and!; [done..|]. simpl. by apply prefix_app_r.
Qed.

Lemma record_author_chapters candidate st :
  chapters (record_author candidate st) = chapters st.
Proof.
  unfold record_author. destruct (BY_LINE_RE candidate); [|done]. by case_decide.
Qed.

Lemma open_chapter_extend st :
  chapters_extend (chapters st) (chapters (open_chapter st)).
Proof.
  unfold open_chapter, ensure_chapter.
  destruct (current_chapter st); simpl;
    [apply chapters_extend_refl|apply chapters_extend_app].
Qed.

Lemma step_extend st raw_line st' :
  step st raw_line = Some st' → state_ok st →
  chapters_extend (chapters st) (chapters st').
Proof.
  unfold step. intros Hstep Hok.
  destruct (HEADING_RE (rstrip raw_line)) as [[hashes group2]|].
  - destruct (flush_paragraph st) as [st1|] eqn:E1; [|done].
    pose proof (flush_paragraph_extend _ _ E1 Hok) as H1. simpl in Hstep.
    case_decide; injection Hstep as <-; simpl; [done|].
    eapply chapters_extend_trans; [done|].
    rewrite record_author_chapters. apply chapters_extend_app.
  - case_decide; [by apply flush_paragraph_extend|].
    pose proof (record_author_ok (rstrip raw_line) st Hok) as Hok1.
    pose proof (open_chapter_extend (record_author (strip (rstrip raw_line)) st)) as H2.
    rewrite record_author_chapters in H2.
    destruct (startswith _ _).
    + destruct (flush_paragraph _) as [st3|] eqn:E3; [|done].
      pose proof (flush_paragraph_extend _ _ E3 (open_chapter_ok _ Hok1)) as H3.
      apply flush_paragraph_ok in E3; [|by apply open_chapter_ok].
      simpl in Hstep.
      apply flush_paragraph_extend in Hstep; [|done]. simpl in Hstep.
      eapply chapters_extend_trans; [done|]. by eapply chapters_extend_trans.
    + by injection Hstep as <-.
Qed.

Lemma run_lines_extend lines st st' :
  run_lines lines st = Some st' → state_ok st →
  chapters_extend (chapters st) (chapters st').
Proof.
  revert st. induction lines as [|raw_line rest IH]; intros st; simpl.
  - intros [= <-] _. apply chapters_extend_refl.
  - destruct (step st raw_line) as [st1|] eqn:E1; [|done]. simpl.
    intros Hrun Hok. eapply chapters_extend_trans; [by eapply step_extend|].
    apply IH; [done|]. by eapply step_ok.
Qed.

(** X12.  Chapters only grow.  Take the state after any first part of the
    lines: in the document, each of its chapters is still there, at the same
    place and with the same number and title; its paragraphs are still its
    first paragraphs; and a chapter that was not the last one at that point
    is unchanged. *)
Theorem parse_markdown_chapters_extend text lines_before lines_after st :
  splitlines text = lines_before ++ lines_after →
  run_lines lines_before initial_state = Some st →
  ∃ doc, parse_markdown text = Some doc ∧
         chapters_extend (chapters st) (Book.chapters (book doc)).
Proof.
  intros Hsplit Hrun.
  pose proof (run_lines_ok _ _ _ Hrun initial_state_ok) as Hok.
  destruct (parse_markdown_returns text) as (st2 & Hrun2 & _ & ->).
  eexists. split; [done|]. simpl.
  rewrite Hsplit, run_lines_app, Hrun in Hrun2. simpl in Hrun2.
  destruct (run_lines lines_after st) as [st1|] eqn:E1; [|done]. simpl in Hrun2.
  eapply chapters_extend_trans; [by eapply run_lines_extend|].
  eapply flush_paragraph_extend; [done|]. by eapply run_lines_ok.
Qed.

Lemma parse_markdown_chapters_extend_witness :
  ∃ doc, parse_markdown (py "## A" ++ [LF] ++ py "One." ++ [LF] ++ py "## B" ++ [LF]
                         ++ py "Two." ++ [LF] ++ py "Three." ++ [LF]) = Some doc ∧
    chapters_extend
      [{| chapter_number := 1; chapter_title := py "A";
          paragraphs := [item_paragraph 1 (py "One.")] |};
       {| chapter_number := 2; chapter_title := py "B"; paragraphs := [] |}]
      (Book.chapters (book doc)).
Proof.
  apply (parse_markdown_chapters_extend _
           [py "## A"; py "One."; py "## B"; py "Two."] [py "Three."]
           {| book_title := None; book_metadata := ∅;
              chapters := [{| chapter_number := 1; chapter_title := py "A";
                              paragraphs := [item_paragraph 1 (py "One.")] |};
                           {| chapter_number := 2; chapter_title := py "B";
                              paragraphs := [] |}];
              current_chapter := Some 1; paragraph_lines := [py "Two."] |});
    reflexivity.
Defined.

(** ** The parser: a paragraph over several lines *)

Lemma strip_rstrip s : strip (rstrip s) = strip s.
Proof.
  destruct (rstrip_split s) as (w & E & Hw).
  destruct (decide (all_of is_space (rstrip s))) as [Hall|Hsome].
  - apply rstrip_nil_iff in Hall. rewrite rstrip_idemp in Hall.
    rewrite Hall in *. simpl in E. subst s. unfold strip.
    by rewrite (proj2 (lstrip_nil_iff w) Hw).
  - unfold strip. rewrite E at 2. rewrite lstrip_app by done.
    by rewrite rstrip_trailing.
Qed.

Lemma record_author_current candidate st :
  current_chapter (record_author candidate st) = current_chapter st ∧
  paragraph_lines (record_author candidate st) = paragraph_lines st.
Proof.
  unfold record_author. destruct (BY_LINE_RE candidate); [|done]. by case_decide.
Qed.

Lemma step_plain st i raw_line :
  plain_line raw_line → current_chapter st = Some i →
  step st raw_line =
  Some (set_paragraph_lines (paragraph_lines st ++ [rstrip raw_line])
          (record_author (strip (rstrip raw_line)) st)).
Proof.
  intros (Hh & Hne & Hitem) Hcur. unfold step. rewrite Hh.
  case_decide; [done|]. rewrite Hitem.
  destruct (record_author_current (strip (rstrip raw_line)) st) as [Ec Ep].
  rewrite (open_chapter_open _ i) by congruence. by rewrite Ep.
Qed.

Lemma run_lines_plain lines st i :
  Forall plain_line lines → current_chapter st = Some i →
  ∃ st', run_lines lines st = Some st' ∧
         chapters st' = chapters st ∧ current_chapter st' = Some i ∧
         paragraph_lines st' = paragraph_lines st ++ (rstrip <$> lines).
Proof.
  intros Hl. revert st. induction Hl as [|l lines Hp _ IH]; intros st Hcur.
  - exists st. by rewrite app_nil_r.
  - simpl. rewrite (step_plain st i) by done. simpl.
    destruct (record_author_current (strip (rstrip l)) st) as [Ec Ep].
    edestruct IH as (st' & -> & Hch & Hc & Hlines); [simpl; congruence|].
    exists st'. split_and!; [done| |done|].
    + rewrite Hch. simpl. apply record_author_chapters.
    + rewrite Hlines. simpl. by rewrite <- app_assoc.
Qed.

(** [flush_paragraph] with an open chapter, in one equation. *)
Lemma flush_paragraph_eq st i ch :
  current_chapter st = Some i → chapters st !! i = Some ch →
  flush_paragraph st =
  let sents := number_sentences 1 (split_sentences
                 (join (py " ") (strip <$> filter (λ line, strip line ≠ [])
                                               (paragraph_lines st)))) in
  Some (set_chapters
          (if decide (sents = []) then chapters st
           else <[i := add_paragraphs ch
                         [{| paragraph_number := length (paragraphs ch) + 1;
                             sentences := sents |}]]> (chapters st))
          (set_paragraph_lines [] st)).
Proof.
  intros Hcur Hch. unfold flush_paragraph. rewrite Hcur. simpl.
  case_decide as Htext.
  { rewrite Htext. simpl. by destruct st. }
  case_decide.
  - by destruct st.
  - unfold append_paragraph. simpl. by rewrite Hch.
Qed.

Lemma plain_lines_text lines :
  Forall plain_line lines →
  strip <$> filter (λ line, strip line ≠ []) (rstrip <$> lines) = strip <$> lines.
Proof.
  induction 1 as [|l lines (_ & Hne & _) _ IH]; [done|]. csimpl.
  rewrite filter_cons_True by done. csimpl. by rewrite IH, strip_rstrip.
Qed.

(** X13.  Lines of running text up to a blank line make one paragraph.
    With a chapter open and nothing pending, any number of plain lines
    followed by a blank line add to the open chapter the one paragraph whose
    sentences are those of the lines, each stripped, joined by single spaces;
    nothing is added when that text has no sentence.  Nothing else changes
    in the chapters. *)
Theorem plain_lines_make_paragraph st i ch lines blank :
  current_chapter st = Some i → chapters st !! i = Some ch →
  paragraph_lines st = [] →
  Forall plain_line lines → all_of is_space blank →
  let sents :=
    number_sentences 1 (split_sentences (join (py " ") (strip <$> lines))) in
  ∃ st', run_lines (lines ++ [blank]) st = Some st' ∧
    paragraph_lines st' = [] ∧ current_chapter st' = Some i ∧
    chapters st' =
      if decide (sents = []) then chapters st
      else <[i := add_paragraphs ch
                    [{| paragraph_number := length (paragraphs ch) + 1;
                        sentences := sents |}]]> (chapters st).
Proof.
  intros Hcur Hch Hnone Hl Hb sents.
  destruct (run_lines_plain lines st i Hl Hcur) as (st1 & Hrun & Hch1 & Hc1 & Hl1).
  rewrite run_lines_app, Hrun. simpl. rewrite step_blank by done.
  rewrite (flush_paragraph_eq st1 i ch) by congruence.
  rewrite Hl1, Hnone. simpl app. rewrite plain_lines_text by done.
  eexists. split; [done|]. simpl. by rewrite Hch1.
Qed.

Lemma plain_lines_make_paragraph_witness :
  ∃ st', run_lines [py "First line,  "; py "  by the way."; py "#tag here"; py " "]
           {| book_title := Some (py "T"); book_metadata := ∅;
              chapters := [{| chapter_number := 1; chapter_title := py "A";
                              paragraphs := [] |}];
              current_chapter := Some 0; paragraph_lines := [] |} = Some st' ∧
    paragraph_lines st' = [] ∧ current_chapter st' = Some 0 ∧
    chapters st' =
      [{| chapter_number := 1; chapter_title := py "A";
          paragraphs := [
            {| paragraph_number := 1;
               sentences := [
                 {| sentence_number := 1; text := py "First line, by the way.";
                    notes := None |};
                 {| sentence_number := 2; text := py "#tag here"; notes := None |}] |}] |}].
Proof.
  apply (plain_lines_make_paragraph
           {| book_title := Some (py "T"); book_metadata := ∅;
              chapters := [{| chapter_number := 1; chapter_title := py "A";
                              paragraphs := [] |}];
              current_chapter := Some 0; paragraph_lines := [] |}
           0 {| chapter_number := 1; chapter_title := py "A"; paragraphs := [] |}
           [py "First line,  "; py "  by the way."; py "#tag here"] (py " ")).
  - reflexivity.
  - reflexivity.
  - reflexivity.
  - repeat constructor; by vm_compute.
  - by apply (bool_decide_unpack _).
Defined.

(** ** What a heading is *)

Lemma space_not_hash c : is_space c = true → is_hash c = false.
Proof.
  unfold is_hash. destruct (N.eqb_spec c 35) as [->|]; [|done]. by vm_compute.
Qed.

Lemma not_newline_all (s : str) : LF ∉ s → all_of not_newline s.
Proof.
  intros H. apply Forall_forall. intros c Hc. unfold not_newline.
  destruct (N.eqb_spec c LF) as [->|]; [|done]. by destruct H.
Qed.

Lemma HEADING_RE_heading hashes ws txt :
  hashes ≠ [] → all_of is_hash hashes → ws ≠ [] → all_of is_space ws →
  stops is_space txt → LF ∉ txt →
  HEADING_RE (hashes ++ ws ++ txt) = Some (hashes, txt).
Proof.
  intros Hne Hh Hwne Hws Htxt Hlf. unfold HEADING_RE.
  apply re_plus_longest; [done| |done|].
  { destruct Hws as [|c ws Hc _]; [done|]. by apply space_not_hash. }
  apply re_plus_longest; [done..|].
  rewrite <- (app_nil_r txt) at 1.
  apply re_star_longest; [by apply not_newline_all|done..].
Qed.

(** X14.  The lines that are headings.  A line without line feed matches
    the heading pattern exactly when it is one or more hash marks, then
    whitespace, then a text that does not start with whitespace (it may be
    empty only if the line ends there); the marks are group 1, whose length
    is the level, and the text is group 2.  So "#tag" is no heading, and
    neither is a line of hash marks alone. *)
Theorem HEADING_RE_spec (line hashes txt : str) :
  LF ∉ line →
  HEADING_RE line = Some (hashes, txt) ↔
  ∃ ws, line = hashes ++ ws ++ txt ∧
        hashes ≠ [] ∧ all_of is_hash hashes ∧
        ws ≠ [] ∧ all_of is_space ws ∧ stops is_space txt.
Proof.
  intros Hlf. split.
  - intros H. pose proof H as H0.
    apply re_plus_inv in H as (h & r1 & -> & Hne & Hh & H).
    apply re_plus_inv in H as (ws0 & r2 & -> & Hwne & Hws0 & H).
    apply re_star_inv in H as (t0 & r3 & -> & _ & H).
    apply re_eol_inv in H as [[= <- <-] _].
    destruct (span_total is_space (t0 ++ r3)) as (ws1 & rest & E & Hws1 & Hrest).
    assert (HEADING_RE (h ++ (ws0 ++ ws1) ++ rest) = Some (h, rest)) as H1.
    { apply HEADING_RE_heading; [done..|by destruct ws0|by apply Forall_app|done|].
      intros Hin. apply Hlf. rewrite E, !elem_of_app. auto. }
    rewrite <- app_assoc, <- E in H1. rewrite H1 in H0. injection H0 as ->.
    exists (ws0 ++ ws1). split_and!; [|done..|by destruct ws0|by apply Forall_app|done].
    by rewrite E, <- !app_assoc.
  - intros (ws & -> & Hne & Hh & Hwne & Hws & Htxt).
    apply HEADING_RE_heading; [done..|].
    intros Hin. apply Hlf. rewrite !elem_of_app. auto.
Qed.

Lemma HEADING_RE_spec_witness :
  HEADING_RE (py "###   Part  two") = Some (py "###", py "Part  two").
Proof.
  apply (HEADING_RE_spec (py "###   Part  two") (py "###") (py "Part  two")).
  - by apply (bool_decide_unpack _).
  - exists (py "   "). split_and!; [reflexivity|discriminate| |discriminate| |reflexivity];
      by apply (bool_decide_unpack _).
Defined.

(** ** A list item is a paragraph of its own *)

Lemma SENTENCE_PATTERN_starts c t :
  not_terminator c = true →
  ∃ g rest, SENTENCE_PATTERN (c :: t) = Some (c :: g, rest).
Proof.
  intros Hc. destruct (span_total not_terminator t) as (body & r & -> & Hbody & Hr).
  assert (all_of not_terminator (c :: body)) as Hb by by constructor.
  destruct r as [|t1 r].
  - exists body, []. rewrite app_nil_r. by apply SENTENCE_PATTERN_fragment.
  - assert (is_terminator t1 = true) as Ht1.
    { simpl in Hr. unfold not_terminator in Hr. by destruct (is_terminator t1). }
    destruct (span_total is_space r) as (ws & rest & -> & Hws & Hrest).
    exists (body ++ [t1] ++ ws), rest.
    by apply (SENTENCE_PATTERN_sentence (c :: body)).
Qed.

(** A paragraph that starts with a character that is neither whitespace nor
    a terminator has a first sentence. *)
Lemma split_sentences_starts c t :
  not_terminator c = true → is_space c = false → split_sentences (c :: t) ≠ [].
Proof.
  intros Hc Hs. unfold split_sentences.
  assert (∃ t', strip (c :: t) = c :: t') as [t' ->].
  { unfold strip. simpl. rewrite Hs. simpl.
    destruct (rstrip t); [rewrite Hs|]; eauto. }
  case_decide; [done|].
  destruct (SENTENCE_PATTERN_starts c t' Hc) as (g & rest & E).
  rewrite (findall_hit _ SENTENCE_PATTERN_progressive _ _ _ E). csimpl.
  rewrite filter_cons_True; [done|].
  intros Hall%normalize_whitespace_nil_inv. inversion Hall; congruence.
Qed.

Lemma number_sentences_nil_inv number sentences_raw :
  number_sentences number sentences_raw = [] → sentences_raw = [].
Proof.
  destruct sentences_raw as [|x l]; [done|]. simpl.
  by destruct (extract_notes x).
Qed.

Lemma startswith_item (s : str) :
  startswith s (py "- ") = true → ∃ t, s = 0x2D%N :: SPACE :: t.
Proof.
  change (py "- ") with [45%N; 32%N].
  destruct s as [|c [|d t]]; cbn [startswith]; try done.
  - by rewrite andb_false_r.
  - destruct (N.eqb_spec c 45) as [->|]; [|done].
    destruct (N.eqb_spec d 32) as [->|]; [|done]. eauto.
Qed.

(** X15.  A list item is always a paragraph of its own.  With a chapter
    open and nothing pending, a line whose stripped text starts with "- "
    adds exactly one paragraph to the open chapter, made of that line alone;
    nothing stays pending, so the next line cannot join it; and the line is
    never taken for an author line. *)
Theorem list_item_own_paragraph st i ch raw_line :
  current_chapter st = Some i → chapters st !! i = Some ch →
  paragraph_lines st = [] →
  HEADING_RE (rstrip raw_line) = None →
  startswith (strip (rstrip raw_line)) (py "- ") = true →
  number_sentences 1 (split_sentences (strip raw_line)) ≠ [] ∧
  step st raw_line =
  Some (set_chapters
          (<[i := add_paragraphs ch
                    [{| paragraph_number := length (paragraphs ch) + 1;
                        sentences :=
                          number_sentences 1 (split_sentences (strip raw_line)) |}]]>
             (chapters st))
          st).
Proof.
  intros Hcur Hch Hnone Hh Hitem.
  pose proof Hitem as (t & Et)%startswith_item.
  assert (number_sentences 1 (split_sentences (strip raw_line)) ≠ []) as Hs.
  { rewrite <- strip_rstrip, Et. intros E%number_sentences_nil_inv.
    by apply split_sentences_starts in E. }
  split; [done|].
  rewrite (step_list_item st i); [|done|by rewrite Et|by rewrite Et|done..].
  rewrite flush_paragraph_empty by done. simpl.
  rewrite (flush_paragraph_single _ i ch (strip (rstrip raw_line))
             (number_sentences 1 (split_sentences (strip raw_line))));
    [|done|done|done|by rewrite strip_idemp, Et
     |by rewrite strip_idemp, strip_rstrip|done].
  destruct st. simpl in *. by subst.
Qed.

Lemma list_item_own_paragraph_witness :
  step {| book_title := None; book_metadata := ∅;
          chapters := [{| chapter_number := 1; chapter_title := py "Section 1";
                          paragraphs := [] |}];
          current_chapter := Some 0; paragraph_lines := [] |}
       (py "  - by hand. Or not ")
  = Some {| book_title := None; book_metadata := ∅;
            chapters := [{| chapter_number := 1; chapter_title := py "Section 1";
                            paragraphs := [
                              {| paragraph_number := 1;
                                 sentences := [
                                   {| sentence_number := 1; text := py "- by hand.";
                                      notes := None |};
                                   {| sentence_number := 2; text := py "Or not";
                                      notes := None |}] |}] |}];
            current_chapter := Some 0; paragraph_lines := [] |}.
Proof.
  apply (list_item_own_paragraph
           {| book_title := None; book_metadata := ∅;
              chapters := [{| chapter_number := 1; chapter_title := py "Section 1";
                              paragraphs := [] |}];
              current_chapter := Some 0; paragraph_lines := [] |}
           0 {| chapter_number := 1; chapter_title := py "Section 1";
                paragraphs := [] |}
           (py "  - by hand. Or not ")); reflexivity.
Defined.

(** ** Text right after the title *)

Lemma step_plain_line st raw_line :
  plain_line raw_line →
  step st raw_line =
  Some (set_paragraph_lines
          (paragraph_lines (open_chapter (record_author (strip (rstrip raw_line)) st))
           ++ [rstrip raw_line])
          (open_chapter (record_author (strip (rstrip raw_line)) st))).
Proof.
  intros (Hh & Hne & Hitem). unfold step. rewrite Hh.
  case_decide; [done|]. by rewrite Hitem.
Qed.

(** X16.  The heading that becomes the title opens no chapter, and closes
    the one that was open: a line of running text right after it starts a
    new chapter, the next in number, whose title is the title of the book. *)
Theorem title_heading_then_text st st0 heading hashes group2 raw_line :
  book_title st = None →
  HEADING_RE (rstrip heading) = Some (hashes, group2) → length hashes = 1 →
  flush_paragraph st = Some st0 →
  plain_line raw_line →
  ∃ st', run_lines [heading; raw_line] st = Some st' ∧
    book_title st' = Some (strip group2) ∧
    chapters st' = chapters st0 ++
      [{| chapter_number := length (chapters st0) + 1;
          chapter_title := strip group2; paragraphs := [] |}] ∧
    current_chapter st' = Some (length (chapters st0)) ∧
    paragraph_lines st' = [rstrip raw_line].
Proof.
  intros Hnone Hh Hlevel Hflush Hplain.
  pose proof (flush_paragraph_keeps _ _ Hflush) as [_ Et].
  pose proof (flush_paragraph_lines _ _ Hflush) as Hl.
  pose proof (HEADING_RE_text _ _ _ Hh) as [Hne _].
  assert (step st heading =
          Some (set_current_chapter None
                  (set_book_title (Some (strip group2)) st0))) as E1.
  { unfold step. rewrite Hh, Hflush. simpl.
    case_decide as Hc; [done|]. destruct Hc; split; congruence. }
  change (run_lines [heading; raw_line] st)
    with (step st heading ≫= λ st1, step st1 raw_line ≫= run_lines []).
  rewrite E1. simpl mbind. rewrite step_plain_line by done.
  eexists. split; [done|].
  set (st1 := set_current_chapter None (set_book_title (Some (strip group2)) st0)).
  destruct (record_author_current (strip (rstrip raw_line)) st1) as [Ec Ep].
  pose proof (record_author_title (strip (rstrip raw_line)) st1) as Etitle.
  pose proof (record_author_chapters (strip (rstrip raw_line)) st1) as Ech.
  destruct (record_author (strip (rstrip raw_line)) st1) as [t2 m2 chs2 cur2 pl2].
  simpl in Ec, Ep, Etitle, Ech. subst t2 chs2 cur2 pl2.
  unfold open_chapter, ensure_chapter, fallback_title. simpl.
  case_decide; [done|]. by rewrite Hl.
Qed.

Lemma title_heading_then_text_witness :
  ∃ st', run_lines [py "# The Book"; py "Some text"]
           {| book_title := None; book_metadata := ∅;
              chapters := [{| chapter_number := 1; chapter_title := py "Intro";
                              paragraphs := [] |}];
              current_chapter := Some 0; paragraph_lines := [py "Pending."] |}
         = Some st' ∧
    book_title st' = Some (py "The Book") ∧
    chapters st' =
      [{| chapter_number := 1; chapter_title := py "Intro";
          paragraphs := [item_paragraph 1 (py "Pending.")] |};
       {| chapter_number := 2; chapter_title := py "The Book"; paragraphs := [] |}] ∧
    current_chapter st' = Some 1 ∧
    paragraph_lines st' = [py "Some text"].
Proof.
  apply (title_heading_then_text
           {| book_title := None; book_metadata := ∅;
              chapters := [{| chapter_number := 1; chapter_title := py "Intro";
                              paragraphs := [] |}];
              current_chapter := Some 0; paragraph_lines := [py "Pending."] |}
           {| book_title := None; book_metadata := ∅;
              chapters := [{| chapter_number := 1; chapter_title := py "Intro";
                              paragraphs := [item_paragraph 1 (py "Pending.")] |}];
              current_chapter := Some 0; paragraph_lines := [] |}
           (py "# The Book") (py "#") (py "The Book") (py "Some text"));
    try reflexivity.
  repeat split; by vm_compute.
Defined.
